(** * Boggle analytics: the round-level and game-level tables

    A shallow embedding of the notebook [02. Exploring Analytics]: the two
    derived columns of the round-level table ([boggle_data_df]) and the
    per-game aggregation with its winner label ([game_level_stats_df]).

    The notebook is written against a dataframe library. The part of that
    library the notebook uses is modelled here as a small library of its own
    ([DataFrame], [apply_rows], [setitem], [groupby_agg], [reset_index]);
    the two cells of the notebook are then transcribed line by line on top
    of it. *)

From stdpp Require Import gmap strings list sorting.
From Stdlib Require Import ZArith Lia.

Open Scope string_scope.
Open Scope list_scope.
Open Scope Z_scope.

(** ** Failures

    Every failure of the notebook is an exception of the dataframe library
    that nothing catches; the run halts. *)

Inductive error : Type :=
  | AttributeError (name : string)   (* [row.name] on a row without that label *)
  | KeyError (name : string)         (* a column asked for by name is absent *)
  | ValueError (msg : string).       (* anything else the library rejects *)

Inductive result (A : Type) : Type :=
  | Ok (a : A)
  | Err (e : error).
Arguments Ok {A} a.
Arguments Err {A} e.

Definition bind {A B} (m : result A) (k : A → result B) : result B :=
  match m with
  | Ok a => k a
  | Err e => Err e
  end.

Notation "'let*' x ':=' m 'in' k" := (bind m (fun x => k))
  (at level 10, x name, m at level 100, k at level 200, only parsing).

(** [traverse f l] runs [f] on the elements of [l] from left to right and
    stops at the first failure. *)
Fixpoint traverse {A B} (f : A → result B) (l : list A) : result (list B) :=
  match l with
  | [] => Ok []
  | x :: l' =>
      let* y := f x in
      let* ys := traverse f l' in
      Ok (y :: ys)
  end.

(** ** Tables

    A table has its column labels, in order, and its rows, in order; the
    position of a row is its index label (the default range index). A row is
    what the library hands to a row-wise callback: a mapping from column
    label to the cell of that row. Cells of the round-level table are
    integers: points are integer counts, and a date is the integer timestamp
    the library stores for it, ordered as the dates are. The library keeps a
    column of integer counts as 64-bit integers; the reductions of such a
    column wrap around ([wrap64]), the arithmetic on the cells of one row,
    which the library hands over as unbounded integers, does not. Blank
    cells and fractional numbers are outside this model: every cell of a
    table has a value. *)

Record DataFrame (A : Type) : Type := mkDataFrame {
  columns : list string;
  rows : list (gmap string A)
}.
Arguments mkDataFrame {A} columns rows.
Arguments columns {A} d.
Arguments rows {A} d.

(** Cells of the game-level table once the winner is added: numbers and
    player names. *)
Inductive cell : Type :=
  | Int (z : Z)
  | Str (s : string).

(** [row.name] *)
Definition getattr {A} (row : gmap string A) (name : string) : result A :=
  match row !! name with
  | Some v => Ok v
  | None => Err (AttributeError name)
  end.

(** [df.copy()]: a table of its own with the same content. Tables are values
    here, so nothing written to the copy reaches the original. *)
Definition copy {A} (df : DataFrame A) : DataFrame A := df.

(** What [df.apply(f, axis=1)] hands back: the series of the results, on
    the index of the table, or a table. *)
Inductive applied (A B : Type) : Type :=
  | Series (cells : list B)
  | Frame (df : DataFrame A).
Arguments Series {A B} cells.
Arguments Frame {A B} df.

(** The row on which the library tries a callback when the table has no
    rows: one cell under every column label. The library fills it with
    nulls; the model has no null cell and fills it with [filler]. A callback
    of the notebook fails on it exactly when it asks for a label the row
    does not have, whatever the cells are. *)
Definition probe_row {A} (filler : A) (labels : list string) : gmap string A :=
  list_to_map ((λ name, (name, filler)) <$> labels).

(** [df.apply(f, axis=1)]: [f] on every row in order; the outcome is the
    series of the results. On a table without rows the library calls [f] on
    no row of the table: it tries [f] on the probe row, and when that
    raises, whatever the exception, it hands back a copy of the table
    instead of a series; when it yields a value, the empty series. (A
    table with rows has at least one column.) *)
Definition apply_rows {A B} (filler : A) (f : gmap string A → result B)
    (df : DataFrame A) : result (applied A B) :=
  match rows df with
  | [] =>
      match f (probe_row filler (columns df)) with
      | Ok _ => Ok (Series [])
      | Err _ => Ok (Frame (copy df))
      end
  | _ :: _ =>
      let* cells := traverse f (rows df) in
      Ok (Series cells)
  end.

(** [df[name] = series], for a series on the index of [df]: a label that is
    already a column keeps its place and gets the new cells; a new label
    becomes the last column. *)
Definition setitem {A} (df : DataFrame A) (name : string) (series : list A)
  : DataFrame A :=
  {| columns := if decide (name ∈ columns df) then columns df
                else columns df ++ [name];
     rows := zip_with (λ row v, <[name := v]> row) (rows df) series |}.

(** [df[name]] as the list of its cells. *)
Definition column {A} (df : DataFrame A) (name : string) : result (list A) :=
  if decide (name ∈ columns df)
  then traverse (λ row,
         match row !! name with
         | Some v => Ok v
         | None => Err (KeyError name)
         end) (rows df)
  else Err (KeyError name).

(** [df[name] = value] for what [apply] handed back. A series goes in as
    above. A table goes in only when it has exactly one column, whose cells
    are then taken; with no column or with several the library raises a
    value error. *)
Definition assign {A} (df : DataFrame A) (name : string) (value : applied A A)
  : result (DataFrame A) :=
  match value with
  | Series cells => Ok (setitem df name cells)
  | Frame table =>
      match columns table with
      | [only] =>
          let* cells := column table only in
          Ok (setitem df name cells)
      | _ => Err (ValueError "cannot set a table with no or several columns to one column")
      end
  end.

(** ** Grouping and aggregating *)

Inductive aggfunc : Type := agg_sum | agg_min | agg_max.

(** The 64-bit integers, and the 64-bit integer an unbounded one wraps
    around to (two's complement). *)
Definition int64 (z : Z) : Prop := - 2 ^ 63 ≤ z < 2 ^ 63.

Definition wrap64 (z : Z) : Z := (z + 2 ^ 63) `mod` 2 ^ 64 - 2 ^ 63.

(** The sum the library computes of a column of 64-bit integers: in a
    64-bit accumulator, from 0. *)
Definition sum_int64 (cells : list Z) : Z :=
  foldl (λ acc x, wrap64 (acc + x)) 0 cells.

(** The reductions of a group's cells. Groups are never empty (a group is
    the rows of a key that occurs); minimum and maximum of no cells at all
    have no integer value. *)
Definition aggregate (f : aggfunc) (cells : list Z) : result Z :=
  match f, cells with
  | agg_sum, _ => Ok (sum_int64 cells)
  | agg_min, x :: cells' => Ok (foldl Z.min x cells')
  | agg_max, x :: cells' => Ok (foldl Z.max x cells')
  | _, [] => Err (ValueError "reduction of an empty group")
  end.

(** A named aggregation [out=(src, f)]. *)
Record named_agg : Type := NamedAgg {
  agg_out : string;
  agg_src : string;
  agg_fun : aggfunc
}.

(** The outcome of [groupby(key).agg(...)]: a table whose index is the group
    keys, under the name of the key column. *)
Record GroupedFrame : Type := mkGroupedFrame {
  index_name : string;
  index : list Z;
  frame : DataFrame Z
}.

(** The rows of one group, in their order in the table. *)
Definition group_rows (key : string) (k : Z) (rs : list (gmap string Z))
  : list (gmap string Z) :=
  filter (λ row, row !! key = Some k) rs.

(** The group keys: each distinct key once, in ascending order (grouping
    sorts its keys unless told otherwise, and the notebook does not). *)
Definition group_keys (keys : list Z) : list Z :=
  merge_sort Z.le (remove_dups keys).

Definition aggregate_group (aggs : list named_agg) (grp : list (gmap string Z))
  : result (gmap string Z) :=
  let* cells := traverse (λ a,
      let* vs := traverse (λ row,
          match row !! agg_src a with
          | Some v => Ok v
          | None => Err (KeyError (agg_src a))
          end) grp in
      let* v := aggregate (agg_fun a) vs in
      Ok (agg_out a, v)) aggs in
  Ok (list_to_map cells).

(** The columns that the aggregations ask for and the table does not have,
    each once, in the order of their labels. The key error of the library
    lists them all; the model's carries the first. *)
Definition string_le (a b : string) : Prop := String.leb a b = true.

#[global] Instance string_le_dec a b : Decision (string_le a b) :=
  decide (String.leb a b = true).

Definition missing_sources (df : DataFrame Z) (aggs : list named_agg)
  : list string :=
  merge_sort string_le
    (remove_dups (filter (λ name, name ∉ columns df) (agg_src <$> aggs))).

(** [df.groupby(key).agg(out1=(src1, f1), ...)] *)
Definition groupby_agg (df : DataFrame Z) (key : string) (aggs : list named_agg)
  : result GroupedFrame :=
  let* keys := column df key in
  match missing_sources df aggs with
  | name :: _ => Err (KeyError name)
  | [] =>
      let ks := group_keys keys in
      let* rs := traverse (λ k, aggregate_group aggs (group_rows key k (rows df))) ks in
      Ok {| index_name := key;
            index := ks;
            frame := {| columns := agg_out <$> aggs; rows := rs |} |}
  end.

(** [.reset_index()]: the index becomes the first column, under its name,
    and the rows are numbered afresh. The library refuses when a column of
    that name is already there. *)
Definition reset_index (g : GroupedFrame) : result (DataFrame Z) :=
  if decide (index_name g ∈ columns (frame g))
  then Err (ValueError "cannot insert the index, already exists")
  else Ok {| columns := index_name g :: columns (frame g);
             rows := zip_with (λ k row, <[index_name g := k]> row)
                       (index g) (rows (frame g)) |}.

(** A table of numbers seen as a table of cells. *)
Definition as_cells (df : DataFrame Z) : DataFrame cell :=
  {| columns := columns df; rows := (λ row : gmap string Z, Int <$> row) <$> rows df |}.

(** The filler of the probe row of a table of numbers. *)
Definition probe_cell : Z := 0.

(** ** The notebook *)

(** Cell 3, "Loading and Transforming Data", from the table that was read:
<<
boggle_data_df = raw_boggle_data_df.copy()
boggle_data_df["point_overlap"] = boggle_data_df.apply(
    lambda row: row.trevor_points_potential - row.trevor_points_scored, axis=1)
boggle_data_df["sarah_points_potential"] = boggle_data_df.apply(
    lambda row: row.sarah_points_scored + row.point_overlap, axis=1)
>> *)
Definition boggle_data_df (raw_boggle_data_df : DataFrame Z) : result (DataFrame Z) :=
  let df := copy raw_boggle_data_df in
  let* overlap := apply_rows probe_cell (λ row,
      let* potential := getattr row "trevor_points_potential" in
      let* scored := getattr row "trevor_points_scored" in
      Ok (potential - scored)) df in
  let* df := assign df "point_overlap" overlap in
  let* potential := apply_rows probe_cell (λ row,
      let* scored := getattr row "sarah_points_scored" in
      let* overlap := getattr row "point_overlap" in
      Ok (scored + overlap)) df in
  assign df "sarah_points_potential" potential.

Definition game_aggs : list named_agg :=
  [ NamedAgg "trevor_total_points" "trevor_points_scored" agg_sum;
    NamedAgg "trevor_min_scoring_round" "trevor_points_scored" agg_min;
    NamedAgg "trevor_max_scoring_round" "trevor_points_scored" agg_max;
    NamedAgg "sarah_total_points" "sarah_points_scored" agg_sum;
    NamedAgg "sarah_min_scoring_round" "sarah_points_scored" agg_min;
    NamedAgg "sarah_max_scoring_round" "sarah_points_scored" agg_max ].

(** The winner label of one game-level row:
    ["Trevor" if row.trevor_total_points > row.sarah_total_points else "Sarah"] *)
Definition winner (row : gmap string Z) : result string :=
  let* trevor := getattr row "trevor_total_points" in
  let* sarah := getattr row "sarah_total_points" in
  Ok (if trevor >? sarah then "Trevor" else "Sarah").

(** Cell 4, "Calculating Game-Level Statistics", from the round-level table:
<<
game_level_stats_df = (
    boggle_data_df.groupby("game_date").agg(...).reset_index())
game_level_stats_df["winner"] = game_level_stats_df.apply(
    lambda row: ("Trevor" if row.trevor_total_points > row.sarah_total_points
                 else "Sarah"), axis=1)
>> *)
Definition game_level_stats_df (boggle_data : DataFrame Z) : result (DataFrame cell) :=
  let* grouped := groupby_agg boggle_data "game_date" game_aggs in
  let* stats := reset_index grouped in
  let* winners := apply_rows probe_cell winner stats in
  assign (as_cells stats) "winner"
    match winners with
    | Series names => Series (Str <$> names)
    | Frame table => Frame (as_cells table)
    end.

(** The whole run: both tables that the notebook saves. *)
Definition pipeline (raw_boggle_data_df : DataFrame Z)
  : result (DataFrame Z * DataFrame cell) :=
  let* round_level := boggle_data_df raw_boggle_data_df in
  let* game_level := game_level_stats_df round_level in
  Ok (round_level, game_level).

(** ** Concrete tables *)

Definition round_columns : list string :=
  ["game_date"; "trevor_points_scored"; "trevor_points_potential"; "sarah_points_scored"].

(** One input row. *)
Definition round (date trevor_scored trevor_potential sarah_scored : Z)
  : gmap string Z :=
  list_to_map [ ("game_date", date);
                ("trevor_points_scored", trevor_scored);
                ("trevor_points_potential", trevor_potential);
                ("sarah_points_scored", sarah_scored) ].

(** 2024-01-01 as a day count (days since 1970-01-01). *)
Definition d2024_01_01 : Z := 19723.

Definition example_rounds : DataFrame Z :=
  {| columns := round_columns;
     rows := [ round d2024_01_01 5 8 6; round d2024_01_01 3 3 10 ] |}.

Definition cells_of {A} (name : string) (df : DataFrame A) : list (option A) :=
  (λ row : gmap string A, row !! name) <$> rows df.


(** ** Vocabulary of the statements *)

(** Every row has a cell under each column label, and under nothing else. *)
Definition well_formed {A} (df : DataFrame A) : Prop :=
  Forall (λ row : gmap string A, dom row = list_to_set (columns df)) (rows df).

(** What cell 3 makes of one row. *)
Definition derived_row (row row' : gmap string Z) : Prop :=
  ∃ potential scored sarah,
    row !! "trevor_points_potential" = Some potential ∧
    row !! "trevor_points_scored" = Some scored ∧
    row !! "sarah_points_scored" = Some sarah ∧
    row' = <["sarah_points_potential" := sarah + (potential - scored)]>
             (<["point_overlap" := potential - scored]> row).

(** The rows that carry the three columns cell 3 reads. *)
Definition readable (row : gmap string Z) : Prop :=
  is_Some (row !! "trevor_points_potential") ∧
  is_Some (row !! "trevor_points_scored") ∧
  is_Some (row !! "sarah_points_scored").


(** One row of the round-level table. *)
Definition round_level (date trevor_scored trevor_potential sarah_scored
                        overlap sarah_potential : Z) : gmap string Z :=
  list_to_map [ ("game_date", date);
                ("trevor_points_scored", trevor_scored);
                ("trevor_points_potential", trevor_potential);
                ("sarah_points_scored", sarah_scored);
                ("point_overlap", overlap);
                ("sarah_points_potential", sarah_potential) ].

(** One row of the game-level table. *)
Definition game (date trevor_total trevor_min trevor_max
                 sarah_total sarah_min sarah_max : Z) (who : string)
  : gmap string cell :=
  list_to_map [ ("game_date", Int date);
                ("trevor_total_points", Int trevor_total);
                ("trevor_min_scoring_round", Int trevor_min);
                ("trevor_max_scoring_round", Int trevor_max);
                ("sarah_total_points", Int sarah_total);
                ("sarah_min_scoring_round", Int sarah_min);
                ("sarah_max_scoring_round", Int sarah_max);
                ("winner", Str who) ].

Definition round_level_columns : list string :=
  round_columns ++ ["point_overlap"; "sarah_points_potential"].

Definition game_level_columns : list string :=
  ["game_date"; "trevor_total_points"; "trevor_min_scoring_round";
   "trevor_max_scoring_round"; "sarah_total_points"; "sarah_min_scoring_round";
   "sarah_max_scoring_round"; "winner"].

(** What the two rounds of [example_rounds] come to. *)
Definition example_round_level : DataFrame Z :=
  {| columns := round_level_columns;
     rows := [ round_level d2024_01_01 5 8 6 3 9;
               round_level d2024_01_01 3 3 10 0 10 ] |}.

Definition example_game_level : DataFrame cell :=
  {| columns := game_level_columns;
     rows := [ game d2024_01_01 8 3 5 16 6 10 "Sarah" ] |}.




(** The sum of the cells of [l], as a number. *)
Definition sum_Z (l : list Z) : Z := foldr Z.add 0 l.

(** [m] is the least (greatest) cell of [l]. *)
Definition is_minimum (m : Z) (l : list Z) : Prop :=
  m ∈ l ∧ Forall (λ x, m ≤ x) l.

Definition is_maximum (m : Z) (l : list Z) : Prop :=
  m ∈ l ∧ Forall (λ x, x ≤ m) l.

(** The cells under [name] of the rows of [df] whose game_date is [date], in
    the order of the rows. *)
Definition scores (name : string) (date : Z) (df : DataFrame Z) : list Z :=
  omap (λ row : gmap string Z, row !! name)
    (filter (λ row : gmap string Z, row !! "game_date" = Some date) (rows df)).

(** What cell 4 makes of the rounds of one date. *)
Definition game_row (df : DataFrame Z) (date : Z) (row : gmap string cell) : Prop :=
  let trevor := scores "trevor_points_scored" date df in
  let sarah := scores "sarah_points_scored" date df in
  ∃ trevor_min trevor_max sarah_min sarah_max,
    is_minimum trevor_min trevor ∧ is_maximum trevor_max trevor ∧
    is_minimum sarah_min sarah ∧ is_maximum sarah_max sarah ∧
    row = game date (wrap64 (sum_Z trevor)) trevor_min trevor_max
                    (wrap64 (sum_Z sarah)) sarah_min sarah_max
                    (if wrap64 (sum_Z trevor) >? wrap64 (sum_Z sarah)
                     then "Trevor" else "Sarah").

(** [total] is [sum] brought within the 64 bits: a 64-bit integer that is a
    multiple of 2^64 away from [sum]. *)
Definition wraps_to (total sum : Z) : Prop :=
  int64 total ∧ (2 ^ 64 | total - sum).

(** The scores of a round are 64-bit integers, as the library stores
    them. *)
Definition int64_scores (row : gmap string Z) : Prop :=
  (∀ v, row !! "trevor_points_scored" = Some v → int64 v) ∧
  (∀ v, row !! "sarah_points_scored" = Some v → int64 v).

(** The scores of the game that a round belongs to add up, for each player,
    to a 64-bit integer. *)
Definition game_sums_fit (df : DataFrame Z) (row : gmap string Z) : Prop :=
  ∀ d, row !! "game_date" = Some d →
    int64 (sum_Z (scores "trevor_points_scored" d df)) ∧
    int64 (sum_Z (scores "sarah_points_scored" d df)).

(** Scores are counts: never below 0. *)
Definition nonnegative_scores (row : gmap string Z) : Prop :=
  (∀ v, row !! "trevor_points_scored" = Some v → 0 ≤ v) ∧
  (∀ v, row !! "sarah_points_scored" = Some v → 0 ≤ v).

(** Three games, entered out of order: Sarah wins the first, the second is a
    tie at 10 points each, Trevor wins the third. *)
Definition d2024_01_02 : Z := 19724.
Definition d2024_01_03 : Z := 19725.

Definition season_rounds : DataFrame Z :=
  {| columns := round_columns;
     rows := [ round d2024_01_03 7 9 4;
               round d2024_01_01 5 8 6;
               round d2024_01_02 4 4 4;
               round d2024_01_01 3 3 10;
               round d2024_01_03 1 2 3;
               round d2024_01_02 6 6 6 ] |}.

Definition season_round_level : DataFrame Z :=
  {| columns := round_level_columns;
     rows := [ round_level d2024_01_03 7 9 4 2 6;
               round_level d2024_01_01 5 8 6 3 9;
               round_level d2024_01_02 4 4 4 0 4;
               round_level d2024_01_01 3 3 10 0 10;
               round_level d2024_01_03 1 2 3 1 4;
               round_level d2024_01_02 6 6 6 0 6 ] |}.

Definition season_game_level : DataFrame cell :=
  {| columns := game_level_columns;
     rows := [ game d2024_01_01 8 3 5 16 6 10 "Sarah";
               game d2024_01_02 10 4 6 10 4 6 "Sarah";
               game d2024_01_03 8 1 7 7 3 4 "Trevor" ] |}.

(** A table of round records without any round. *)
Definition no_rounds (cs : list string) : DataFrame Z :=
  {| columns := cs; rows := [] |}.

(** The rows that carry the three columns cell 4 reads. *)
Definition aggregable (row : gmap string Z) : Prop :=
  is_Some (row !! "game_date") ∧
  is_Some (row !! "trevor_points_scored") ∧
  is_Some (row !! "sarah_points_scored").

(** One game of two rounds in which each player scores 2^62 twice: the
    scores are 64-bit integers, their sum 2^63 is not. *)
Definition overflowing_rounds : DataFrame Z :=
  {| columns := round_columns;
     rows := [ round d2024_01_01 (2 ^ 62) (2 ^ 62) (2 ^ 62);
               round d2024_01_01 (2 ^ 62) (2 ^ 62) (2 ^ 62) ] |}.

Definition overflowing_round_level : DataFrame Z :=
  {| columns := round_level_columns;
     rows := [ round_level d2024_01_01 (2 ^ 62) (2 ^ 62) (2 ^ 62) 0 (2 ^ 62);
               round_level d2024_01_01 (2 ^ 62) (2 ^ 62) (2 ^ 62) 0 (2 ^ 62) ] |}.

Definition overflowing_game_level : DataFrame cell :=
  {| columns := game_level_columns;
     rows := [ game d2024_01_01 (- 2 ^ 63) (2 ^ 62) (2 ^ 62)
                                (- 2 ^ 63) (2 ^ 62) (2 ^ 62) "Sarah" ] |}.

(** ** The looks at the tables that close the notebook

    [game_level_stats_df["winner"].value_counts()], the [.sum()] of the two
    total columns and the [.min()] of the two scored columns. *)

#[global] Instance cell_eq_dec : EqDecision cell.
Proof. solve_decision. Defined.

(** [a + b] on two cells of a column: 64-bit numbers add within the 64
    bits, names concatenate, and a number and a name do not go together. *)
Definition add_cell (a b : cell) : result cell :=
  match a, b with
  | Int x, Int y => Ok (Int (wrap64 (x + y)))
  | Str s, Str t => Ok (Str (String.append s t))
  | _, _ => Err (ValueError "unsupported operand types for +")
  end.

(** [series.sum()]: the cells added up from the first one on; 0 for a
    series without cells. *)
Definition series_sum (s : list cell) : result cell :=
  match s with
  | [] => Ok (Int 0)
  | c :: s' => foldl (λ acc c', let* a := acc in add_cell a c') (Ok c) s'
  end.

(** [series.min()] on a series of numbers: the least cell; the null value,
    and no failure, for a series without cells. *)
Definition series_min (s : list Z) : option Z :=
  match s with
  | [] => None
  | x :: s' => Some (foldl Z.min x s')
  end.

(** The number of cells of [s] that are [v]. *)
Definition occurrences (v : cell) (s : list cell) : nat :=
  length (filter (λ c, c = v) s).

(** The order of the counts: the more frequent first. *)
Definition more_frequent (a b : cell * nat) : Prop := (b.2 ≤ a.2)%nat.

(** The distinct cells of a series, each where it is first seen. *)
Fixpoint first_seen (s : list cell) : list cell :=
  match s with
  | [] => []
  | c :: s' => c :: filter (λ c', c' ≠ c) (first_seen s')
  end.

(** A count put into a listing that has the more frequent first: before the
    first entry that is not more frequent than it. *)
Fixpoint insert_count (p : cell * nat) (l : list (cell * nat)) : list (cell * nat) :=
  match l with
  | [] => [p]
  | q :: l' =>
      if decide (q.2 ≤ p.2)%nat then p :: q :: l' else q :: insert_count p l'
  end.

(** [series.value_counts()]: each distinct cell with the number of times it
    occurs, the most frequent first, and among cells that occur equally
    often the one seen first in the series first. *)
Definition value_counts (s : list cell) : list (cell * nat) :=
  foldr insert_count [] ((λ v, (v, occurrences v s)) <$> first_seen s).

(** The columns a cell asks for, in the order in which it asks, and the
    first of them that a table does not have. *)
Definition derivation_reads : list string :=
  ["trevor_points_potential"; "trevor_points_scored"; "sarah_points_scored"].

Definition aggregation_reads : list string :=
  ["game_date"; "trevor_points_scored"; "sarah_points_scored"].

Definition first_missing {A} (names : list string) (df : DataFrame A)
  : option string :=
  head (filter (λ name, name ∉ columns df) names).

(** ** More concrete tables *)

(** A table that lacks sarah_points_scored. *)
Definition trevor_only_rounds : DataFrame Z :=
  {| columns := ["game_date"; "trevor_points_scored"; "trevor_points_potential"];
     rows := [ list_to_map [ ("game_date", d2024_01_01);
                             ("trevor_points_scored", 5);
                             ("trevor_points_potential", 8) ] ] |}.

(** A table that lacks game_date. *)
Definition undated_rounds : DataFrame Z :=
  {| columns := ["trevor_points_scored"; "trevor_points_potential"; "sarah_points_scored"];
     rows := [ list_to_map [ ("trevor_points_scored", 5);
                             ("trevor_points_potential", 8);
                             ("sarah_points_scored", 6) ] ] |}.

(** The rounds of [season_rounds] in another order. *)
Definition season_rounds_by_date : DataFrame Z :=
  {| columns := round_columns;
     rows := [ round d2024_01_01 3 3 10;
               round d2024_01_01 5 8 6;
               round d2024_01_02 6 6 6;
               round d2024_01_02 4 4 4;
               round d2024_01_03 7 9 4;
               round d2024_01_03 1 2 3 ] |}.
(** ** Facts about the small library *)

Ltac inv_bind H :=
  repeat match type of H with
  | bind ?m _ = Ok _ =>
      let E := fresh "E" in destruct m eqn:E; simpl in H; [|discriminate H]
  end.

(** The same for every hypothesis, down to the innermost call. *)
Ltac inv_binds :=
  repeat match goal with
  | H : bind ?m _ = Ok _ |- _ =>
      let E := fresh "E" in destruct m eqn:E; simpl in H; [|discriminate H]
  | H : Ok _ = Ok _ |- _ => injection H as H
  end.

#[local] Arguments aggregate : simpl never.

(** A property of every row of a concrete table that asks about the cells
    of the row: row by row, with the cells looked up. *)
Ltac by_rows :=
  repeat constructor;
  repeat match goal with
  | H : _ !! _ = Some _ |- _ => vm_compute in H; injection H as <-
  end;
  by vm_compute.

Section traverse.
Context {A B : Type} (f : A → result B).

Lemma traverse_Ok l l' :
  traverse f l = Ok l' ↔ Forall2 (λ x y, f x = Ok y) l l'.
Proof.
  revert l'. induction l as [|x l IH]; intros l'; simpl.
  - split.
    + intros [= <-]. constructor.
    + intros ->%Forall2_nil_inv_l. done.
  - split.
    + intros H. inv_bind H. injection H as <-.
      constructor; [done|]. by apply IH.
    + intros (y & k & Hy & Hk & ->)%Forall2_cons_inv_l.
      rewrite Hy. simpl. apply IH in Hk. by rewrite Hk.
Qed.

Lemma traverse_total l :
  Forall (λ x, ∃ y, f x = Ok y) l → ∃ l', traverse f l = Ok l'.
Proof.
  induction 1 as [|x l [y Hy] _ [l' Hl']]; simpl.
  - by eexists.
  - rewrite Hy, Hl'. by eexists.
Qed.

Lemma traverse_length l l' : traverse f l = Ok l' → length l' = length l.
Proof. intros H%traverse_Ok. symmetry. by eapply Forall2_length. Qed.
End traverse.

(** Reading one label off every row: the outcome is exactly the cells under
    that label. *)
Lemma traverse_lookup {A} (name : string) (e : error) (rs : list (gmap string A)) vs :
  traverse (λ row, match row !! name with Some v => Ok v | None => Err e end) rs = Ok vs →
  (λ row : gmap string A, row !! name) <$> rs = Some <$> vs.
Proof.
  intros H%traverse_Ok. induction H as [|row v rs vs Hv _ IH]; [done|].
  rewrite !fmap_cons, IH. by destruct (row !! name); simplify_eq.
Qed.

Lemma omap_lookup_Some {A} (name : string) (rs : list (gmap string A)) vs :
  (λ row : gmap string A, row !! name) <$> rs = Some <$> vs →
  omap (λ row : gmap string A, row !! name) rs = vs.
Proof.
  revert vs. induction rs as [|row rs IH]; intros [|v vs] [=]; [done|].
  csimpl. rewrite H0. csimpl. f_equal. by apply IH.
Qed.

Lemma getattr_Ok {A} (row : gmap string A) name v :
  getattr row name = Ok v ↔ row !! name = Some v.
Proof. unfold getattr. destruct (row !! name); naive_solver. Qed.

Lemma probe_row_lookup {A} (filler : A) labels name :
  name ∈ labels → probe_row filler labels !! name = Some filler.
Proof.
  unfold probe_row. induction labels as [|c cs IH]; [by intros ?%elem_of_nil|].
  rewrite fmap_cons. simpl. intros Hin.
  destruct (decide (c = name)) as [->|Hne]; [by rewrite lookup_insert_eq|].
  rewrite lookup_insert_ne by done.
  apply elem_of_cons in Hin as [?|Hin]; [done | by apply IH].
Qed.

(** What a series that [apply] hands back holds: the callback's values,
    row by row. *)
Lemma apply_rows_Series {A B} filler (f : gmap string A → result B) df cells :
  apply_rows filler f df = Ok (Series cells) →
  Forall2 (λ row v, f row = Ok v) (rows df) cells.
Proof.
  unfold apply_rows. destruct (rows df) as [|row rs] eqn:Hrows.
  - destruct (f _); intros [= <-]. constructor.
  - intros H. inv_bind H. injection H as <-. by apply traverse_Ok.
Qed.

(** [apply] hands back a table only for a table without rows, and then that
    table. *)
Lemma apply_rows_Frame {A B} filler (f : gmap string A → result B) df table :
  apply_rows filler f df = Ok (Frame table) → rows df = [] ∧ table = df.
Proof.
  unfold apply_rows, copy. destruct (rows df) as [|row rs].
  - destruct (f _); intros [= <-]. done.
  - intros H. by inv_bind H.
Qed.

(** When the callback runs through on every row, and on the probe row of a
    table without rows, [apply] hands back a series. *)
Lemma apply_rows_total {A B} filler (f : gmap string A → result B) df :
  (rows df = [] → ∃ v, f (probe_row filler (columns df)) = Ok v) →
  Forall (λ row, ∃ v, f row = Ok v) (rows df) →
  ∃ cells, apply_rows filler f df = Ok (Series cells).
Proof.
  intros Hprobe Hrows. unfold apply_rows.
  destruct (rows df) as [|row rs] eqn:Hdf.
  - destruct Hprobe as [v ->]; [done|]. by eexists.
  - destruct (traverse_total f (row :: rs) Hrows) as [cells ->]. by eexists.
Qed.

(** On a table with rows, [apply] fails as the callback does on the first
    row it fails on. *)
Lemma apply_rows_Err {A B} filler (f : gmap string A → result B) df e :
  rows df ≠ [] → traverse f (rows df) = Err e → apply_rows filler f df = Err e.
Proof.
  unfold apply_rows. destruct (rows df); [done|]. by intros _ ->.
Qed.

(** Assigning what [apply] handed back as a column: some cells go in under
    the label, and row by row they are the callback's values. *)
Lemma apply_assign {A} filler (f : gmap string A → result A) df name value out :
  apply_rows filler f df = Ok value →
  assign df name value = Ok out →
  ∃ cells, out = setitem df name cells ∧
    Forall2 (λ row row', ∃ v, f row = Ok v ∧ row' = <[name := v]> row)
      (rows df) (rows out).
Proof.
  destruct value as [cells|table]; simpl.
  - intros H%apply_rows_Series [= <-]. exists cells. split; [done|]. simpl.
    induction H as [|row v rs vs Hv _ IH]; simpl; constructor; eauto.
  - intros [Hrows ->]%apply_rows_Frame H.
    destruct (columns df) as [|only [|]]; try done.
    inv_bind H. injection H as <-. eexists. split; [done|].
    simpl. rewrite Hrows. constructor.
Qed.

(** ** The round-level table, row by row *)

Lemma boggle_data_df_inv raw out :
  boggle_data_df raw = Ok out →
  ∃ overlap potential,
    out = setitem (setitem raw "point_overlap" overlap)
            "sarah_points_potential" potential ∧
    Forall2 derived_row (rows raw) (rows out).
Proof.
  unfold boggle_data_df, copy. intros H. inv_bind H.
  destruct (apply_assign _ _ _ _ _ _ E E0) as (overlap & -> & Hmid).
  destruct (apply_assign _ _ _ _ _ _ E1 H) as (potential & -> & Hout).
  exists overlap, potential. split; [done|].
  eapply Forall2_trans; [|exact Hmid|exact Hout].
  intros row mid row' (o & Ho & ->) (p & Hp & ->).
  inv_bind Ho. inv_bind Hp. simplify_eq.
  repeat match goal with
  | H : getattr _ _ = Ok _ |- _ => apply getattr_Ok in H
  end.
  rewrite lookup_insert_ne in * by done.
  rewrite lookup_insert_eq in *. simplify_eq.
  by repeat eexists.
Qed.

Lemma boggle_data_df_rows raw out :
  boggle_data_df raw = Ok out → Forall2 derived_row (rows raw) (rows out).
Proof. by intros (? & ? & _ & ?)%boggle_data_df_inv. Qed.

Lemma boggle_data_df_columns raw out :
  boggle_data_df raw = Ok out →
  columns out =
    let cs := if decide ("point_overlap" ∈ columns raw) then columns raw
              else columns raw ++ ["point_overlap"] in
    if decide ("sarah_points_potential" ∈ cs) then cs
    else cs ++ ["sarah_points_potential"].
Proof. by intros (? & ? & -> & _)%boggle_data_df_inv. Qed.

Lemma setitem_columns_mono {A} (df : DataFrame A) name series c :
  c ∈ columns df → c ∈ columns (setitem df name series).
Proof.
  intros Hc. unfold setitem. simpl. destruct (decide _); [done|].
  apply elem_of_app. by left.
Qed.

Lemma setitem_columns_name {A} (df : DataFrame A) name series :
  name ∈ columns (setitem df name series).
Proof.
  unfold setitem. simpl. destruct (decide _); [done|].
  apply elem_of_app. right. by left.
Qed.

(** Cell 3 runs through on every table that has the three columns it reads,
    in its column labels and in its rows. *)
Lemma boggle_data_df_total raw :
  derivation_reads ⊆ columns raw →
  Forall readable (rows raw) → ∃ out, boggle_data_df raw = Ok out.
Proof.
  intros Hcols Hrows.
  assert ("trevor_points_potential" ∈ columns raw ∧
          "trevor_points_scored" ∈ columns raw ∧
          "sarah_points_scored" ∈ columns raw) as (Hp & Hs & Hb).
  { repeat split; apply Hcols; compute_done. }
  unfold boggle_data_df, copy.
  destruct (apply_rows_total probe_cell (λ row,
      let* potential := getattr row "trevor_points_potential" in
      let* scored := getattr row "trevor_points_scored" in
      Ok (potential - scored)) raw) as [overlap Ho].
  { intros _. unfold getattr. rewrite !probe_row_lookup by done. by eexists. }
  { eapply Forall_impl; [exact Hrows|].
    intros row ([p Hp'] & [s Hs'] & _). unfold getattr. rewrite Hp', Hs'. by eexists. }
  rewrite Ho. simpl.
  pose proof (apply_assign _ _ raw "point_overlap" _ _ Ho eq_refl)
    as (cells & _ & Hmid).
  destruct (apply_rows_total probe_cell (λ row,
      let* scored := getattr row "sarah_points_scored" in
      let* overlap := getattr row "point_overlap" in
      Ok (scored + overlap)) (setitem raw "point_overlap" overlap)) as [pot Hpot].
  { intros _. unfold getattr.
    rewrite (probe_row_lookup _ _ "sarah_points_scored")
      by (by apply setitem_columns_mono).
    rewrite (probe_row_lookup _ _ "point_overlap")
      by apply setitem_columns_name.
    by eexists. }
  { eapply Forall2_Forall_r; [exact Hmid|].
    eapply Forall_impl; [exact Hrows|].
    intros row (_ & _ & [b Hb']) mid (v & _ & ->). unfold getattr.
    rewrite lookup_insert_ne by done. rewrite Hb'. simpl.
    rewrite lookup_insert_eq. by eexists. }
  rewrite Hpot. simpl. by eexists.
Qed.

Lemma setitem_well_formed {A} (df : DataFrame A) name series :
  well_formed df → well_formed (setitem df name series).
Proof.
  unfold well_formed, setitem. simpl. intros Hwf.
  assert (list_to_set (if decide (name ∈ columns df) then columns df
                       else columns df ++ [name])
          =@{gset string} {[name]} ∪ list_to_set (columns df)) as ->.
  { destruct (decide _) as [Hin|_].
    - apply (elem_of_list_to_set (C:=gset string)) in Hin.
      symmetry. by apply subseteq_union_1_L, singleton_subseteq_l.
    - rewrite list_to_set_app_L. simpl.
      by rewrite (right_id_L ∅ (∪)), (comm_L (∪)). }
  revert series. induction Hwf as [|row rs Hrow _ IH]; intros [|v vs]; simpl;
    constructor; [|by apply IH].
  by rewrite dom_insert_L, Hrow.
Qed.

(** Cell 3 hands on a table as well formed as the one it got. *)
Lemma boggle_data_df_well_formed raw out :
  well_formed raw → boggle_data_df raw = Ok out → well_formed out.
Proof.
  intros Hwf (? & ? & -> & _)%boggle_data_df_inv.
  by do 2 apply setitem_well_formed.
Qed.

(** ** Reductions *)

Lemma foldl_min_spec x l : is_minimum (foldl Z.min x l) (x :: l).
Proof.
  revert x. induction l as [|y l IH]; intros x; simpl.
  - split; [left | by repeat constructor].
  - destruct (IH (Z.min x y)) as [Hin Hle]. split.
    + apply elem_of_cons in Hin as [->|Hin].
      * destruct (Z.min_spec x y) as [[_ ->]|[_ ->]]; [left | right; left].
      * by do 2 right.
    + apply Forall_cons in Hle as [Hm Hle].
      repeat constructor; [lia | lia | done].
Qed.

Lemma foldl_max_spec x l : is_maximum (foldl Z.max x l) (x :: l).
Proof.
  revert x. induction l as [|y l IH]; intros x; simpl.
  - split; [left | by repeat constructor].
  - destruct (IH (Z.max x y)) as [Hin Hle]. split.
    + apply elem_of_cons in Hin as [->|Hin].
      * destruct (Z.max_spec x y) as [[_ ->]|[_ ->]]; [right; left | left].
      * by do 2 right.
    + apply Forall_cons in Hle as [Hm Hle].
      repeat constructor; [lia | lia | done].
Qed.

(** Wrapping around keeps a number within the 64 bits, leaves a 64-bit
    number as it is, and moves a number by a multiple of 2^64. *)
Lemma wrap64_int64 z : int64 (wrap64 z).
Proof.
  unfold int64, wrap64.
  pose proof (Z.mod_pos_bound (z + 2 ^ 63) (2 ^ 64) eq_refl). lia.
Qed.

Lemma wrap64_small z : int64 z → wrap64 z = z.
Proof.
  unfold int64, wrap64. intros Hz.
  rewrite Z.mod_small by lia. lia.
Qed.

Lemma wrap64_divide z : (2 ^ 64 | wrap64 z - z).
Proof.
  unfold wrap64. exists (- ((z + 2 ^ 63) `div` 2 ^ 64)).
  pose proof (Z.div_mod (z + 2 ^ 63) (2 ^ 64) ltac:(done)). lia.
Qed.

Lemma wrap64_add_l a b : wrap64 (wrap64 a + b) = wrap64 (a + b).
Proof.
  unfold wrap64. f_equal.
  replace ((a + 2 ^ 63) `mod` 2 ^ 64 - 2 ^ 63 + b + 2 ^ 63)
    with ((a + 2 ^ 63) `mod` 2 ^ 64 + b) by lia.
  rewrite Zplus_mod_idemp_l. f_equal. lia.
Qed.

(** A number that is within the 64 bits and a multiple of 2^64 away from
    [z] is what [z] wraps around to. *)
Lemma wrap64_unique z w : int64 w → (2 ^ 64 | w - z) → w = wrap64 z.
Proof.
  intros Hw [k Hk]. pose proof (wrap64_int64 z) as Hz.
  destruct (wrap64_divide z) as [k' Hk']. unfold int64 in *.
  assert (w - wrap64 z = (k - k') * 2 ^ 64) as Hd by lia.
  assert (k - k' = 0) by nia. lia.
Qed.

(** The 64-bit accumulator ends on the sum, wrapped around. *)
Lemma sum_int64_wrap l : sum_int64 l = wrap64 (sum_Z l).
Proof.
  unfold sum_int64. change 0 with (wrap64 0) at 1.
  replace (sum_Z l) with (0 + sum_Z l) by lia. generalize 0.
  induction l as [|x l IH]; intros a; simpl.
  - f_equal. lia.
  - rewrite wrap64_add_l, IH. f_equal. lia.
Qed.

Lemma aggregate_sum l v : aggregate agg_sum l = Ok v → v = wrap64 (sum_Z l).
Proof. intros [= <-]. apply sum_int64_wrap. Qed.

Lemma aggregate_min l v : aggregate agg_min l = Ok v → is_minimum v l.
Proof. destruct l; intros [= <-]. apply foldl_min_spec. Qed.

Lemma aggregate_max l v : aggregate agg_max l = Ok v → is_maximum v l.
Proof. destruct l; intros [= <-]. apply foldl_max_spec. Qed.

Lemma aggregate_total f l : l ≠ [] → ∃ v, aggregate f l = Ok v.
Proof. destruct f, l; intros ?; simpl; by eauto. Qed.

Lemma minimum_le_maximum m M l : is_minimum m l → is_maximum M l → m ≤ M.
Proof.
  intros [Hm _] [_ HM]. rewrite Forall_forall in HM. by apply HM.
Qed.

(** Among cells that are all at least 0, none exceeds the sum. *)
Lemma elem_of_le_sum x l : Forall (λ y, 0 ≤ y) l → x ∈ l → x ≤ sum_Z l.
Proof.
  induction 1 as [|y l Hy Hl IH]; [by intros ?%elem_of_nil|].
  assert (0 ≤ sum_Z l).
  { clear IH. induction Hl; simpl; [done | lia]. }
  intros [->|Hin]%elem_of_cons; simpl; [lia|]. specialize (IH Hin). lia.
Qed.

(** ** Group keys *)

Lemma elem_of_group_keys k keys : k ∈ group_keys keys ↔ k ∈ keys.
Proof.
  unfold group_keys. by rewrite merge_sort_Permutation, elem_of_remove_dups.
Qed.

Lemma NoDup_group_keys keys : NoDup (group_keys keys).
Proof.
  unfold group_keys. rewrite merge_sort_Permutation. apply NoDup_remove_dups.
Qed.

Lemma StronglySorted_le_lt (l : list Z) :
  NoDup l → StronglySorted Z.le l → StronglySorted Z.lt l.
Proof.
  intros Hnd Hs. induction Hs as [|x l Hs IH Hx]; [constructor|].
  apply NoDup_cons in Hnd as [Hx' Hnd]. constructor; [by apply IH|].
  rewrite Forall_forall in Hx |- *. intros y Hy.
  specialize (Hx y Hy). assert (x ≠ y) by (by intros ->). lia.
Qed.

Lemma group_keys_ascending keys : StronglySorted Z.lt (group_keys keys).
Proof.
  apply StronglySorted_le_lt; [apply NoDup_group_keys|].
  unfold group_keys. apply StronglySorted_merge_sort; apply _.
Qed.

(** ** The game-level table, row by row *)

(** The six statistics of one group. *)
Lemma aggregate_group_game grp stats :
  aggregate_group game_aggs grp = Ok stats →
  ∃ trevor sarah trevor_min trevor_max sarah_min sarah_max,
    (λ row : gmap string Z, row !! "trevor_points_scored") <$> grp = Some <$> trevor ∧
    (λ row : gmap string Z, row !! "sarah_points_scored") <$> grp = Some <$> sarah ∧
    is_minimum trevor_min trevor ∧ is_maximum trevor_max trevor ∧
    is_minimum sarah_min sarah ∧ is_maximum sarah_max sarah ∧
    stats = list_to_map
      [ ("trevor_total_points", wrap64 (sum_Z trevor));
        ("trevor_min_scoring_round", trevor_min);
        ("trevor_max_scoring_round", trevor_max);
        ("sarah_total_points", wrap64 (sum_Z sarah));
        ("sarah_min_scoring_round", sarah_min);
        ("sarah_max_scoring_round", sarah_max) ].
Proof.
  unfold aggregate_group, game_aggs. simpl. intros H. inv_binds. subst.
  repeat match goal with
  | H : traverse _ _ = Ok _ |- _ => apply traverse_lookup in H
  | H : aggregate agg_sum _ = Ok _ |- _ => apply aggregate_sum in H
  | H : aggregate agg_min _ = Ok _ |- _ => apply aggregate_min in H
  | H : aggregate agg_max _ = Ok _ |- _ => apply aggregate_max in H
  end.
  subst. rewrite ?sum_int64_wrap.
  do 6 eexists. do 6 (split; [eassumption|]). reflexivity.
Qed.

Lemma column_Ok {A} (df : DataFrame A) name vs :
  column df name = Ok vs →
  name ∈ columns df ∧
  (λ row : gmap string A, row !! name) <$> rows df = Some <$> vs.
Proof.
  unfold column. destruct (decide _); [|done].
  intros H%traverse_lookup. done.
Qed.

Lemma groupby_agg_Ok df key aggs g :
  groupby_agg df key aggs = Ok g →
  ∃ keys,
    (λ row : gmap string Z, row !! key) <$> rows df = Some <$> keys ∧
    index_name g = key ∧ index g = group_keys keys ∧
    columns (frame g) = agg_out <$> aggs ∧
    Forall2 (λ k stats, aggregate_group aggs (group_rows key k (rows df)) = Ok stats)
      (group_keys keys) (rows (frame g)) ∧
    key ∈ columns df ∧
    missing_sources df aggs = [].
Proof.
  unfold groupby_agg. intros H.
  destruct (column df key) as [keys|] eqn:Hkeys; [|done]. simpl in H.
  destruct (missing_sources df aggs) eqn:Hmissing; [|done].
  destruct (traverse _ (group_keys keys)) as [rs|] eqn:Hrs; [|done].
  injection H as <-. simpl.
  apply column_Ok in Hkeys as [? ?]. apply traverse_Ok in Hrs. eauto 10.
Qed.

(** No source is missing exactly when the table has them all. *)
Lemma missing_sources_nil df aggs :
  missing_sources df aggs = [] ↔ Forall (λ a, agg_src a ∈ columns df) aggs.
Proof.
  unfold missing_sources. rewrite Forall_forall. split.
  - intros Hnil a Ha. apply dec_stable. intros Hn.
    assert (agg_src a ∈ merge_sort string_le
      (remove_dups (filter (λ name, name ∉ columns df) (agg_src <$> aggs)))) as Hin.
    { rewrite merge_sort_Permutation, elem_of_remove_dups.
      apply list_elem_of_filter. split; [done|]. by apply list_elem_of_fmap_2. }
    rewrite Hnil in Hin. by apply elem_of_nil in Hin.
  - intros Hall.
    assert (filter (λ name, name ∉ columns df) (agg_src <$> aggs) = []) as ->; [|done].
    induction aggs as [|a aggs IH]; [done|]. rewrite fmap_cons.
    rewrite filter_cons_False by (intros Hn; apply Hn, Hall; left).
    apply IH. intros a' Ha'. apply Hall. by right.
Qed.

(** A missing source that is reported is a source the table lacks. *)
Lemma missing_sources_head df aggs name rest :
  missing_sources df aggs = name :: rest →
  (name ∉ columns df) ∧ name ∈ (agg_src <$> aggs).
Proof.
  unfold missing_sources. intros H.
  assert (name ∈ merge_sort string_le
    (remove_dups (filter (λ name, name ∉ columns df) (agg_src <$> aggs)))) as Hin
    by (rewrite H; left).
  rewrite merge_sort_Permutation in Hin.
  apply (proj1 (elem_of_remove_dups _ _)) in Hin.
  by apply list_elem_of_filter in Hin.
Qed.

(** The row of one game, as cell 4 assembles it. *)
Lemma game_row_assemble k (trevor sarah tmin tmax smin smax : Z) w :
  winner (<["game_date" := k]> (list_to_map
      [ ("trevor_total_points", trevor);
        ("trevor_min_scoring_round", tmin);
        ("trevor_max_scoring_round", tmax);
        ("sarah_total_points", sarah);
        ("sarah_min_scoring_round", smin);
        ("sarah_max_scoring_round", smax) ])) = Ok w →
  <["winner" := Str w]> (Int <$> <["game_date" := k]> (list_to_map
      [ ("trevor_total_points", trevor);
        ("trevor_min_scoring_round", tmin);
        ("trevor_max_scoring_round", tmax);
        ("sarah_total_points", sarah);
        ("sarah_min_scoring_round", smin);
        ("sarah_max_scoring_round", smax) ]))
  = game k trevor tmin tmax sarah smin smax
      (if trevor >? sarah then "Trevor" else "Sarah").
Proof.
  unfold winner, getattr, game. simpl. simplify_map_eq. intros [= <-].
  rewrite !fmap_insert, fmap_empty.
  repeat (rewrite (insert_insert_ne _ "winner") by done; f_equal).
Qed.

(** The table that [reset_index] makes of the grouped statistics. *)
Lemma game_stats_Ok df stats :
  (let* grouped := groupby_agg df "game_date" game_aggs in reset_index grouped)
    = Ok stats →
  ∃ keys rs,
    (λ row : gmap string Z, row !! "game_date") <$> rows df = Some <$> keys ∧
    Forall2 (λ k stats, aggregate_group game_aggs
                          (group_rows "game_date" k (rows df)) = Ok stats)
      (group_keys keys) rs ∧
    stats = {| columns := "game_date" :: (agg_out <$> game_aggs);
               rows := zip_with (λ k (row : gmap string Z), <["game_date" := k]> row)
                         (group_keys keys) rs |}.
Proof.
  intros H. destruct (groupby_agg df "game_date" game_aggs) as [g|] eqn:Eg; [|done].
  simpl in H.
  apply groupby_agg_Ok in Eg as (keys & Hkeys & Hname & Hindex & Hcols & Hstats & _).
  unfold reset_index in H. rewrite Hname, Hindex, Hcols in H.
  destruct (decide _) as [|_] in H; [done|]. injection H as <-.
  by exists keys, (rows (frame g)).
Qed.

Lemma game_level_stats_df_rows df out :
  game_level_stats_df df = Ok out →
  ∃ keys,
    (λ row : gmap string Z, row !! "game_date") <$> rows df = Some <$> keys ∧
    columns out = game_level_columns ∧
    Forall2 (game_row df) (group_keys keys) (rows out).
Proof.
  unfold game_level_stats_df. intros H.
  destruct (let* grouped := groupby_agg df "game_date" game_aggs in
            reset_index grouped) as [stats|] eqn:Es.
  2: { destruct (groupby_agg df "game_date" game_aggs); simpl in *; [|done].
       by rewrite Es in H. }
  assert ((let* winners := apply_rows probe_cell winner stats in
           assign (as_cells stats) "winner"
             match winners with
             | Series names => Series (Str <$> names)
             | Frame table => Frame (as_cells table)
             end) = Ok out) as H'.
  { destruct (groupby_agg df "game_date" game_aggs); simpl in *; [|done].
    by rewrite Es in H. }
  clear H. apply game_stats_Ok in Es as (keys & rs & Hkeys & Hstats & ->).
  exists keys. split; [done|].
  destruct (apply_rows probe_cell winner _) as [[ws|table]|] eqn:Ew; [| |done].
  - simpl in H'. injection H' as <-. split; [done|].
    apply apply_rows_Series in Ew. simpl in *. clear Hkeys.
    revert ws Ew. induction Hstats as [|k stats ks rs Hk _ IH]; intros ws Hws;
      simpl in *.
    + apply Forall2_nil_inv_l in Hws as ->. constructor.
    + apply Forall2_cons_inv_l in Hws as (w & ws' & Hw & Hws & ->).
      rewrite fmap_cons. simpl. constructor; [|by apply IH].
      apply aggregate_group_game in Hk
        as (ts & ss & tmin & tmax & smin & smax & Hts & Hss & ? & ? & ? & ? & ->).
      apply omap_lookup_Some in Hts, Hss.
      unfold game_row, scores. fold (group_rows "game_date" k (rows df)).
      rewrite Hts, Hss. exists tmin, tmax, smin, smax.
      do 4 (split; [done|]). by apply game_row_assemble.
  - apply apply_rows_Frame in Ew as [_ ->]. done.
Qed.

Lemma aggregate_group_total grp :
  grp ≠ [] →
  Forall (λ row : gmap string Z,
      is_Some (row !! "trevor_points_scored") ∧
      is_Some (row !! "sarah_points_scored")) grp →
  ∃ stats, aggregate_group game_aggs grp = Ok stats.
Proof.
  intros Hne Hgrp.
  destruct (traverse_total (λ row : gmap string Z,
      match row !! "trevor_points_scored" with
      | Some v => Ok v
      | None => Err (KeyError "trevor_points_scored")
      end) grp) as [ts Hts].
  { eapply Forall_impl; [exact Hgrp|]. intros row [[v ->] _]. by eexists. }
  destruct (traverse_total (λ row : gmap string Z,
      match row !! "sarah_points_scored" with
      | Some v => Ok v
      | None => Err (KeyError "sarah_points_scored")
      end) grp) as [ss Hss].
  { eapply Forall_impl; [exact Hgrp|]. intros row [_ [v ->]]. by eexists. }
  assert (ts ≠ []) as Hts'.
  { intros ->. apply traverse_length in Hts. by destruct grp. }
  assert (ss ≠ []) as Hss'.
  { intros ->. apply traverse_length in Hss. by destruct grp. }
  destruct (aggregate_total agg_min ts Hts') as [tmin Htmin].
  destruct (aggregate_total agg_max ts Hts') as [tmax Htmax].
  destruct (aggregate_total agg_min ss Hss') as [smin Hsmin].
  destruct (aggregate_total agg_max ss Hss') as [smax Hsmax].
  unfold aggregate_group, game_aggs. simpl. rewrite Hts, Hss. simpl.
  rewrite Htmin, Htmax, Hsmin, Hsmax. simpl. by eexists.
Qed.

Lemma winner_total k grp stats :
  aggregate_group game_aggs grp = Ok stats →
  ∃ w, winner (<["game_date" := k]> stats) = Ok w.
Proof.
  intros (ts & ss & tmin & tmax & smin & smax & _ & _ & _ & _ & _ & _ & ->)
    %aggregate_group_game.
  unfold winner, getattr. simpl. simplify_map_eq. by eexists.
Qed.

(** Cell 4 runs through on every table that has the three columns it
    reads. *)
Lemma game_level_stats_df_total df :
  "game_date" ∈ columns df →
  "trevor_points_scored" ∈ columns df →
  "sarah_points_scored" ∈ columns df →
  Forall aggregable (rows df) →
  ∃ out, game_level_stats_df df = Ok out.
Proof.
  intros Hd Ht Hs Hrows.
  assert (∃ keys, column df "game_date" = Ok keys) as [keys Hkeys].
  { unfold column. rewrite decide_True by done. apply traverse_total.
    eapply Forall_impl; [exact Hrows|]. intros row ([v ->] & _). by eexists. }
  assert (missing_sources df game_aggs = []) as Hmissing.
  { apply missing_sources_nil. unfold game_aggs. by repeat constructor. }
  destruct (traverse_total
      (λ k, aggregate_group game_aggs (group_rows "game_date" k (rows df)))
      (group_keys keys)) as [rs Hrs].
  { apply Forall_forall. intros k Hk.
    apply (proj1 (elem_of_group_keys _ _)) in Hk.
    apply column_Ok in Hkeys as [_ Hkeys].
    assert (∃ row, row ∈ rows df ∧ row !! "game_date" = Some k) as (row & Hin & Hrow).
    { assert (Some k ∈ (λ row : gmap string Z, row !! "game_date") <$> rows df)
        as (row & ? & ?)%list_elem_of_fmap
        by (rewrite Hkeys; apply list_elem_of_fmap; by exists k).
      eauto. }
    apply aggregate_group_total.
    - intros Hnil. assert (row ∈ group_rows "game_date" k (rows df)) as Hin'.
      { by apply list_elem_of_filter. }
      rewrite Hnil in Hin'. by apply elem_of_nil in Hin'.
    - apply Forall_forall. intros row' [_ Hin']%list_elem_of_filter.
      rewrite Forall_forall in Hrows. by destruct (Hrows row' Hin') as (_ & ? & ?). }
  destruct (apply_rows_total probe_cell winner
      {| columns := "game_date" :: (agg_out <$> game_aggs);
         rows := zip_with (λ k (row : gmap string Z), <["game_date" := k]> row)
                   (group_keys keys) rs |}) as [ws Hws].
  { intros _. by eexists. }
  { simpl. apply traverse_Ok in Hrs. clear Hkeys.
    induction Hrs as [|k stats ks rs' Hk _ IH]; simpl; constructor; [|done].
    by eapply winner_total. }
  unfold game_level_stats_df, groupby_agg. rewrite Hkeys. simpl.
  rewrite Hmissing, Hrs. simpl. unfold reset_index. simpl. simpl in Hws.
  rewrite Hws. simpl. by eexists.
Qed.

(** The dates the input has are the cells of its game_date column. *)
Lemma elem_of_keys (df : DataFrame Z) keys d :
  (λ row : gmap string Z, row !! "game_date") <$> rows df = Some <$> keys →
  d ∈ keys ↔ ∃ row, row ∈ rows df ∧ row !! "game_date" = Some d.
Proof.
  intros Hkeys. split.
  - intros Hd.
    assert (Some d ∈ (λ row : gmap string Z, row !! "game_date") <$> rows df)
      as (row & ? & ?)%list_elem_of_fmap
      by (rewrite Hkeys; apply list_elem_of_fmap; by exists d).
    eauto.
  - intros (row & Hin & Hrow).
    assert (Some d ∈ Some <$> keys) as (d' & [= <-] & ?)%list_elem_of_fmap; [|done].
    rewrite <-Hkeys. apply list_elem_of_fmap. by exists row.
Qed.

Lemma scores_nonnegative name d df :
  Forall (λ row : gmap string Z, ∀ v, row !! name = Some v → 0 ≤ v) (rows df) →
  Forall (λ v, 0 ≤ v) (scores name d df).
Proof.
  rewrite !Forall_forall. intros Hrows v.
  unfold scores. intros (row & [_ Hin]%list_elem_of_filter & Hv)%list_elem_of_omap.
  by eapply Hrows.
Qed.

Lemma boggle_data_df_columns_mono raw out c :
  boggle_data_df raw = Ok out → c ∈ columns raw → c ∈ columns out.
Proof.
  intros (? & ? & -> & _)%boggle_data_df_inv Hc.
  by do 2 apply setitem_columns_mono.
Qed.

(** No rounds, no games. *)
Lemma game_level_stats_df_no_rows df out :
  rows df = [] → game_level_stats_df df = Ok out → rows out = [].
Proof.
  intros Hrows (keys & Hkeys & _ & H)%game_level_stats_df_rows.
  rewrite Hrows in Hkeys. symmetry in Hkeys. apply fmap_nil_inv in Hkeys as ->.
  by apply Forall2_nil_inv_l in H.
Qed.

(** ** The round-level table against its specification *)





(** C5: the column derivation maps every table of round records to a table
    with as many rows, in the same order, in which every input column and
    every cell of it is as it was, and to which exactly two columns are
    appended, point_overlap and then sarah_points_potential. A table of
    round records has the three columns the derivation reads, among its
    column labels and in every row, and the two derived labels are not
    among its columns. *)
Theorem derivation_frame (raw : DataFrame Z) :
  derivation_reads ⊆ columns raw →
  Forall readable (rows raw) →
  "point_overlap" ∉ columns raw →
  "sarah_points_potential" ∉ columns raw →
  ∃ out, boggle_data_df raw = Ok out ∧
    columns out = columns raw ++ ["point_overlap"; "sarah_points_potential"] ∧
    length (rows out) = length (rows raw) ∧
    ∀ i row, rows raw !! i = Some row →
      ∃ row', rows out !! i = Some row' ∧
        (∀ name, name ∈ columns raw → row' !! name = row !! name) ∧
        dom row' = {["point_overlap"; "sarah_points_potential"]} ∪ dom row.
Proof.
  intros Hcols Hrows Ho Hp.
  destruct (boggle_data_df_total raw Hcols Hrows) as [out H].
  exists out. split; [done|]. split; [|split].
  - rewrite (boggle_data_df_columns _ _ H). simpl.
    destruct (decide ("point_overlap" ∈ columns raw)) as [|_]; [done|].
    destruct (decide (_ ∈ _)) as [Hin|_].
    + apply elem_of_app in Hin as [Hin|Hin%list_elem_of_singleton]; done.
    + by rewrite <-(assoc (++)).
  - apply boggle_data_df_rows in H. symmetry. by eapply Forall2_length.
  - apply boggle_data_df_rows in H. intros i row Hi.
    destruct (Forall2_lookup_l _ _ _ _ _ H Hi)
      as (row' & Hi' & p & s & b & _ & _ & _ & ->).
    exists (<["sarah_points_potential" := b + (p - s)]>
              (<["point_overlap" := p - s]> row)).
    split; [done|]. split.
    + intros name Hname. rewrite !lookup_insert_ne; [done| |]; by intros <-.
    + rewrite !dom_insert_L, (assoc_L (∪)).
      by rewrite (comm_L (∪) {["sarah_points_potential"]}).
Qed.

Lemma derivation_frame_witness :
  ∃ out, boggle_data_df example_rounds = Ok out ∧
    columns out
      = columns example_rounds ++ ["point_overlap"; "sarah_points_potential"] ∧
    length (rows out) = length (rows example_rounds) ∧
    ∀ i row, rows example_rounds !! i = Some row →
      ∃ row', rows out !! i = Some row' ∧
        (∀ name, name ∈ columns example_rounds → row' !! name = row !! name) ∧
        dom row' = {["point_overlap"; "sarah_points_potential"]} ∪ dom row.
Proof.
  apply (derivation_frame example_rounds).
  - compute_done.
  - repeat constructor; eexists; vm_compute; reflexivity.
  - compute_done.
  - compute_done.
Defined.



(** ** The game-level table against its specification *)

Lemma season_runs :
  boggle_data_df season_rounds = Ok season_round_level ∧
  game_level_stats_df season_round_level = Ok season_game_level.
Proof. split; vm_compute; reflexivity. Qed.

(** C1: in every game record the winner is "Trevor" exactly when
    trevor_total_points is strictly greater than sarah_total_points, and
    "Sarah" in every other case, a tie of the two totals included. *)
Theorem winner_spec (df : DataFrame Z) (out : DataFrame cell) :
  game_level_stats_df df = Ok out →
  Forall (λ row, ∃ trevor sarah,
      row !! "trevor_total_points" = Some (Int trevor) ∧
      row !! "sarah_total_points" = Some (Int sarah) ∧
      (row !! "winner" = Some (Str "Trevor") ↔ trevor > sarah) ∧
      (row !! "winner" = Some (Str "Sarah") ↔ trevor ≤ sarah) ∧
      (trevor = sarah → row !! "winner" = Some (Str "Sarah"))) (rows out).
Proof.
  intros (keys & _ & _ & H)%game_level_stats_df_rows.
  eapply Forall2_Forall_r; [exact H|]. apply Forall_true.
  intros k row (tmin & tmax & smin & smax & _ & _ & _ & _ & ->).
  eexists _, _. unfold game. simpl.
  split; [by simplify_map_eq|]. split; [by simplify_map_eq|].
  rewrite !lookup_insert_ne by done. rewrite lookup_insert_eq.
  destruct (Z.gtb_spec (wrap64 (sum_Z (scores "trevor_points_scored" k df)))
                       (wrap64 (sum_Z (scores "sarah_points_scored" k df)))).
  - split; [|split]; [split | split |]; (done || lia).
  - split; [|split]; [split | split |]; (done || lia).
Qed.

Lemma winner_spec_witness :
  game_level_stats_df season_round_level = Ok season_game_level ∧
  Forall (λ row, ∃ trevor sarah,
      row !! "trevor_total_points" = Some (Int trevor) ∧
      row !! "sarah_total_points" = Some (Int sarah) ∧
      (row !! "winner" = Some (Str "Trevor") ↔ trevor > sarah) ∧
      (row !! "winner" = Some (Str "Sarah") ↔ trevor ≤ sarah) ∧
      (trevor = sarah → row !! "winner" = Some (Str "Sarah")))
    (rows season_game_level).
Proof.
  split; [vm_compute; reflexivity|].
  apply (winner_spec season_round_level). vm_compute; reflexivity.
Defined.

(** C4, as the code has it: the aggregation gives exactly one row per
    distinct game_date of the input; in the row of a date, the minimum and
    the maximum columns of a player are the minimum and the maximum of that
    player's points_scored over the input rows of that date, and the total
    column is their sum brought within 64 bits, which is the sum itself
    whenever the sum is a 64-bit integer. The scores are 64-bit integers. *)
Theorem game_level_aggregation (df : DataFrame Z) :
  "game_date" ∈ columns df →
  "trevor_points_scored" ∈ columns df →
  "sarah_points_scored" ∈ columns df →
  Forall aggregable (rows df) →
  Forall int64_scores (rows df) →
  ∃ out dates,
    game_level_stats_df df = Ok out ∧
    NoDup dates ∧
    (∀ d, d ∈ dates ↔ ∃ row, row ∈ rows df ∧ row !! "game_date" = Some d) ∧
    length (rows out) = length dates ∧
    Forall2 (λ d row,
        let trevor := scores "trevor_points_scored" d df in
        let sarah := scores "sarah_points_scored" d df in
        row !! "game_date" = Some (Int d) ∧
        (∃ t, row !! "trevor_total_points" = Some (Int t) ∧
              wraps_to t (sum_Z trevor) ∧
              (int64 (sum_Z trevor) → t = sum_Z trevor)) ∧
        (∃ m, row !! "trevor_min_scoring_round" = Some (Int m) ∧ is_minimum m trevor) ∧
        (∃ m, row !! "trevor_max_scoring_round" = Some (Int m) ∧ is_maximum m trevor) ∧
        (∃ t, row !! "sarah_total_points" = Some (Int t) ∧
              wraps_to t (sum_Z sarah) ∧
              (int64 (sum_Z sarah) → t = sum_Z sarah)) ∧
        (∃ m, row !! "sarah_min_scoring_round" = Some (Int m) ∧ is_minimum m sarah) ∧
        (∃ m, row !! "sarah_max_scoring_round" = Some (Int m) ∧ is_maximum m sarah))
      dates (rows out).
Proof.
  intros Hd Ht Hs Hrows _.
  destruct (game_level_stats_df_total df Hd Ht Hs Hrows) as [out Hout].
  destruct (game_level_stats_df_rows df out Hout) as (keys & Hkeys & _ & H).
  exists out, (group_keys keys). split; [done|].
  split; [apply NoDup_group_keys|]. split; [|split].
  - intros d. rewrite elem_of_group_keys. by apply elem_of_keys.
  - symmetry. by eapply Forall2_length.
  - eapply Forall2_impl; [exact H|].
    intros k row (tmin & tmax & smin & smax & ? & ? & ? & ? & ->).
    unfold game. simpl. simplify_map_eq.
    assert (∀ s, wraps_to (wrap64 s) s ∧ (int64 s → wrap64 s = s)) as Hwrap.
    { intros s. split; [split|]; auto using wrap64_int64, wrap64_divide, wrap64_small. }
    split; [done|].
    split; [eexists; split; [done|]; apply Hwrap|].
    split; [eauto|]. split; [eauto|].
    split; [eexists; split; [done|]; apply Hwrap|].
    split; eauto.
Qed.

Lemma game_level_aggregation_witness :
  game_level_stats_df season_round_level = Ok season_game_level ∧
  ∃ dates,
    NoDup dates ∧
    (∀ d, d ∈ dates ↔
       ∃ row, row ∈ rows season_round_level ∧ row !! "game_date" = Some d) ∧
    length (rows season_game_level) = length dates ∧
    Forall2 (λ d row,
        let trevor := scores "trevor_points_scored" d season_round_level in
        let sarah := scores "sarah_points_scored" d season_round_level in
        row !! "game_date" = Some (Int d) ∧
        (∃ t, row !! "trevor_total_points" = Some (Int t) ∧
              wraps_to t (sum_Z trevor) ∧
              (int64 (sum_Z trevor) → t = sum_Z trevor)) ∧
        (∃ m, row !! "trevor_min_scoring_round" = Some (Int m) ∧ is_minimum m trevor) ∧
        (∃ m, row !! "trevor_max_scoring_round" = Some (Int m) ∧ is_maximum m trevor) ∧
        (∃ t, row !! "sarah_total_points" = Some (Int t) ∧
              wraps_to t (sum_Z sarah) ∧
              (int64 (sum_Z sarah) → t = sum_Z sarah)) ∧
        (∃ m, row !! "sarah_min_scoring_round" = Some (Int m) ∧ is_minimum m sarah) ∧
        (∃ m, row !! "sarah_max_scoring_round" = Some (Int m) ∧ is_maximum m sarah))
      dates (rows season_game_level).
Proof.
  assert (game_level_stats_df season_round_level = Ok season_game_level) as Hrun
    by (vm_compute; reflexivity).
  split; [exact Hrun|].
  destruct (game_level_aggregation season_round_level) as (out & dates & Hout & H).
  - compute_done.
  - compute_done.
  - compute_done.
  - repeat constructor; eexists; vm_compute; reflexivity.
  - by_rows.
  - rewrite Hrun in Hout. injection Hout as <-. by exists dates.
Defined.

(** C4, as the specification words it, fails where a sum leaves the 64 bits: on two
    rounds of one date in which Trevor scores 2^62 twice, the total column
    holds -2^63, and the sum of his scores is 2^63. *)
Lemma game_level_aggregation_counterexample :
  boggle_data_df overflowing_rounds = Ok overflowing_round_level ∧
  game_level_stats_df overflowing_round_level = Ok overflowing_game_level ∧
  cells_of "game_date" overflowing_game_level = [Some (Int d2024_01_01)] ∧
  cells_of "trevor_total_points" overflowing_game_level = [Some (Int (- 2 ^ 63))] ∧
  sum_Z (scores "trevor_points_scored" d2024_01_01 overflowing_round_level) = 2 ^ 63 ∧
  cells_of "trevor_total_points" overflowing_game_level
    ≠ [Some (Int (sum_Z (scores "trevor_points_scored" d2024_01_01
                           overflowing_round_level)))].
Proof. repeat split; vm_compute; (reflexivity || discriminate). Qed.

(** C7: the rows of the game-level table are in ascending order of
    game_date. *)
Theorem game_level_ascending (df : DataFrame Z) (out : DataFrame cell) :
  game_level_stats_df df = Ok out →
  ∃ dates,
    Forall2 (λ d row, row !! "game_date" = Some (Int d)) dates (rows out) ∧
    StronglySorted Z.lt dates.
Proof.
  intros (keys & _ & _ & H)%game_level_stats_df_rows.
  exists (group_keys keys). split; [|apply group_keys_ascending].
  eapply Forall2_impl; [exact H|].
  intros k row (tmin & tmax & smin & smax & _ & _ & _ & _ & ->).
  unfold game. simpl. by simplify_map_eq.
Qed.

Lemma game_level_ascending_witness :
  game_level_stats_df season_round_level = Ok season_game_level ∧
  ∃ dates,
    Forall2 (λ d row, row !! "game_date" = Some (Int d))
      dates (rows season_game_level) ∧
    StronglySorted Z.lt dates.
Proof.
  split; [vm_compute; reflexivity|].
  apply (game_level_ascending season_round_level). vm_compute; reflexivity.
Defined.

(** C9, as the code has it: when no round has a negative score and the
    scores of every game add up, for each player, to a 64-bit integer,
    every game record has, for Trevor and for Sarah alike, min_scoring_round
    at most max_scoring_round and max_scoring_round at most total_points. *)
Theorem game_stats_ordered (df : DataFrame Z) (out : DataFrame cell) :
  Forall nonnegative_scores (rows df) →
  Forall (game_sums_fit df) (rows df) →
  game_level_stats_df df = Ok out →
  Forall (λ row, ∃ tmin tmax ttotal smin smax stotal,
      row !! "trevor_min_scoring_round" = Some (Int tmin) ∧
      row !! "trevor_max_scoring_round" = Some (Int tmax) ∧
      row !! "trevor_total_points" = Some (Int ttotal) ∧
      row !! "sarah_min_scoring_round" = Some (Int smin) ∧
      row !! "sarah_max_scoring_round" = Some (Int smax) ∧
      row !! "sarah_total_points" = Some (Int stotal) ∧
      tmin ≤ tmax ≤ ttotal ∧ smin ≤ smax ≤ stotal) (rows out).
Proof.
  intros Hpos Hfit (keys & Hkeys & _ & H)%game_level_stats_df_rows.
  assert (Forall (λ k, int64 (sum_Z (scores "trevor_points_scored" k df)) ∧
                       int64 (sum_Z (scores "sarah_points_scored" k df)))
            (group_keys keys)) as Hks.
  { apply Forall_forall. intros k Hk.
    apply (proj1 (elem_of_group_keys _ _)) in Hk.
    apply (elem_of_keys df keys k Hkeys) in Hk as (row & Hrow & Hd).
    rewrite Forall_forall in Hfit. by apply (Hfit row Hrow). }
  eapply Forall2_Forall_r; [exact H|].
  eapply Forall_impl; [exact Hks|].
  intros k [Hft Hfs] row
    (tmin & tmax & smin & smax & Htmin & Htmax & Hsmin & Hsmax & ->).
  exists tmin, tmax, (sum_Z (scores "trevor_points_scored" k df)),
         smin, smax, (sum_Z (scores "sarah_points_scored" k df)).
  rewrite (wrap64_small _ Hft), (wrap64_small _ Hfs).
  unfold game. simpl. simplify_map_eq. do 6 (split; [done|]).
  pose proof (minimum_le_maximum _ _ _ Htmin Htmax).
  pose proof (minimum_le_maximum _ _ _ Hsmin Hsmax).
  assert (tmax ≤ sum_Z (scores "trevor_points_scored" k df)).
  { apply elem_of_le_sum; [|apply Htmax]. apply scores_nonnegative.
    eapply Forall_impl; [exact Hpos|]. by intros ? [? _]. }
  assert (smax ≤ sum_Z (scores "sarah_points_scored" k df)).
  { apply elem_of_le_sum; [|apply Hsmax]. apply scores_nonnegative.
    eapply Forall_impl; [exact Hpos|]. by intros ? [_ ?]. }
  lia.
Qed.

Lemma game_stats_ordered_witness :
  Forall nonnegative_scores (rows season_round_level) ∧
  Forall (game_sums_fit season_round_level) (rows season_round_level) ∧
  game_level_stats_df season_round_level = Ok season_game_level ∧
  Forall (λ row, ∃ tmin tmax ttotal smin smax stotal,
      row !! "trevor_min_scoring_round" = Some (Int tmin) ∧
      row !! "trevor_max_scoring_round" = Some (Int tmax) ∧
      row !! "trevor_total_points" = Some (Int ttotal) ∧
      row !! "sarah_min_scoring_round" = Some (Int smin) ∧
      row !! "sarah_max_scoring_round" = Some (Int smax) ∧
      row !! "sarah_total_points" = Some (Int stotal) ∧
      tmin ≤ tmax ≤ ttotal ∧ smin ≤ smax ≤ stotal) (rows season_game_level).
Proof.
  assert (Forall nonnegative_scores (rows season_round_level)) as Hpos.
  { repeat constructor; intros v; vm_compute; intros [= <-]; discriminate. }
  assert (Forall (game_sums_fit season_round_level) (rows season_round_level))
    as Hfit.
  { by_rows. }
  split; [exact Hpos|]. split; [exact Hfit|]. split; [vm_compute; reflexivity|].
  apply (game_stats_ordered season_round_level); [exact Hpos | exact Hfit |].
  vm_compute; reflexivity.
Defined.

(** C9, as the specification words it, fails where a sum leaves the 64 bits: on two
    rounds of one date in which each player scores 2^62 twice, no score is
    negative, and the record of the game has the maximum 2^62 above the
    total -2^63. *)
Lemma game_stats_ordered_counterexample :
  Forall nonnegative_scores (rows overflowing_round_level) ∧
  game_level_stats_df overflowing_round_level = Ok overflowing_game_level ∧
  cells_of "trevor_max_scoring_round" overflowing_game_level = [Some (Int (2 ^ 62))] ∧
  cells_of "trevor_total_points" overflowing_game_level = [Some (Int (- 2 ^ 63))] ∧
  ¬ (2 ^ 62 ≤ - 2 ^ 63).
Proof.
  split.
  { repeat constructor; intros v; vm_compute; intros [= <-]; discriminate. }
  repeat split; vm_compute; (reflexivity || (intros H; by apply H)).
Qed.

(** C10: on a table of round records without rows neither step fails: the
    column derivation returns a table without rows, and the aggregation,
    of that table as of the input itself, a table without game records. *)
Theorem empty_input (cs : list string) :
  round_columns ⊆ cs →
  ∃ round_level game_level game_level',
    boggle_data_df (no_rounds cs) = Ok round_level ∧
    rows round_level = [] ∧
    game_level_stats_df round_level = Ok game_level ∧
    rows game_level = [] ∧
    game_level_stats_df (no_rounds cs) = Ok game_level' ∧
    rows game_level' = [].
Proof.
  intros Hcs.
  assert ("game_date" ∈ cs ∧ "trevor_points_scored" ∈ cs ∧ "sarah_points_scored" ∈ cs)
    as (Hd & Ht & Hs).
  { repeat split; apply Hcs; unfold round_columns; set_solver. }
  destruct (boggle_data_df_total (no_rounds cs)) as [round_level Hround];
    [| constructor |].
  { intros name Hname. apply Hcs. revert Hname.
    unfold derivation_reads, round_columns. rewrite !elem_of_cons. tauto. }
  assert (rows round_level = []) as Hrows.
  { apply boggle_data_df_rows in Hround. by apply Forall2_nil_inv_l in Hround. }
  destruct (game_level_stats_df_total round_level) as [game_level Hgame].
  1-3: by eapply boggle_data_df_columns_mono.
  { rewrite Hrows. constructor. }
  destruct (game_level_stats_df_total (no_rounds cs)) as [game_level' Hgame'];
    [done..|constructor|].
  exists round_level, game_level, game_level'.
  repeat split; [done..| |done|];
    eapply game_level_stats_df_no_rows; [| eassumption | | eassumption]; done.
Qed.

Lemma empty_input_witness :
  ∃ round_level game_level game_level',
    boggle_data_df (no_rounds round_columns) = Ok round_level ∧
    rows round_level = [] ∧
    game_level_stats_df round_level = Ok game_level ∧
    rows game_level = [] ∧
    game_level_stats_df (no_rounds round_columns) = Ok game_level' ∧
    rows game_level' = [].
Proof. apply (empty_input round_columns). reflexivity. Defined.

(** C8: on the two rounds (2024-01-01, 5, 8, 6) and (2024-01-01, 3, 3, 10)
    the round-level table gets point_overlap 3 and 0 and
    sarah_points_potential 9 and 10, and the game-level table is the single
    row for 2024-01-01 with totals 8 and 16, minima 3 and 6, maxima 5 and
    10, and winner "Sarah". *)
Theorem worked_example :
  pipeline example_rounds = Ok (example_round_level, example_game_level) ∧
  boggle_data_df example_rounds = Ok example_round_level ∧
  cells_of "point_overlap" example_round_level = [Some 3; Some 0] ∧
  cells_of "sarah_points_potential" example_round_level = [Some 9; Some 10] ∧
  game_level_stats_df example_round_level = Ok example_game_level ∧
  cells_of "game_date" example_game_level = [Some (Int d2024_01_01)] ∧
  cells_of "trevor_total_points" example_game_level = [Some (Int 8)] ∧
  cells_of "trevor_min_scoring_round" example_game_level = [Some (Int 3)] ∧
  cells_of "trevor_max_scoring_round" example_game_level = [Some (Int 5)] ∧
  cells_of "sarah_total_points" example_game_level = [Some (Int 16)] ∧
  cells_of "sarah_min_scoring_round" example_game_level = [Some (Int 6)] ∧
  cells_of "sarah_max_scoring_round" example_game_level = [Some (Int 10)] ∧
  cells_of "winner" example_game_level = [Some (Str "Sarah")].
Proof. repeat split; vm_compute; reflexivity. Qed.

(** ** Further properties: what the two cells refuse *)

Lemma well_formed_lookup_None {A} (df : DataFrame A) name row :
  well_formed df → row ∈ rows df → name ∉ columns df → row !! name = None.
Proof.
  unfold well_formed. rewrite Forall_forall. intros Hwf Hrow Hname.
  apply not_elem_of_dom. rewrite (Hwf row Hrow).
  by rewrite elem_of_list_to_set.
Qed.

Lemma well_formed_lookup_Some {A} (df : DataFrame A) name row :
  well_formed df → row ∈ rows df → name ∈ columns df → is_Some (row !! name).
Proof.
  unfold well_formed. rewrite Forall_forall. intros Hwf Hrow Hname.
  apply elem_of_dom. rewrite (Hwf row Hrow).
  by rewrite elem_of_list_to_set.
Qed.

Lemma derivation_missing_column_cases (raw : DataFrame Z) :
  well_formed raw →
  rows raw ≠ [] →
  ("trevor_points_potential" ∉ columns raw →
   boggle_data_df raw = Err (AttributeError "trevor_points_potential")) ∧
  ("trevor_points_potential" ∈ columns raw →
   "trevor_points_scored" ∉ columns raw →
   boggle_data_df raw = Err (AttributeError "trevor_points_scored")) ∧
  ("trevor_points_potential" ∈ columns raw →
   "trevor_points_scored" ∈ columns raw →
   "sarah_points_scored" ∉ columns raw →
   boggle_data_df raw = Err (AttributeError "sarah_points_scored")).
Proof.
  intros Hwf Hne. destruct raw as [cs [|row rs]]; [done|]. clear Hne.
  assert (row ∈ rows (mkDataFrame cs (row :: rs))) as Hrow by (simpl; left).
  split; [|split].
  - intros Hp. unfold boggle_data_df, copy, apply_rows, getattr. simpl.
    by rewrite (well_formed_lookup_None _ _ _ Hwf Hrow Hp).
  - intros Hp Hs. unfold boggle_data_df, copy, apply_rows, getattr. simpl.
    destruct (well_formed_lookup_Some _ _ _ Hwf Hrow Hp) as [p ->].
    by rewrite (well_formed_lookup_None _ _ _ Hwf Hrow Hs).
  - intros Hp Hs Hb.
    destruct (traverse_total (λ row : gmap string Z,
        let* potential := getattr row "trevor_points_potential" in
        let* scored := getattr row "trevor_points_scored" in
        Ok (potential - scored)) (row :: rs)) as [overlap Ho].
    { apply Forall_forall. intros row' Hrow'. unfold getattr.
      destruct (well_formed_lookup_Some _ "trevor_points_potential" _ Hwf Hrow' Hp) as [p ->].
      destruct (well_formed_lookup_Some _ "trevor_points_scored" _ Hwf Hrow' Hs) as [s ->].
      by eexists. }
    unfold boggle_data_df, copy. unfold apply_rows at 1.
    cbn [rows]. rewrite Ho. cbn [bind assign].
    pose proof (traverse_length _ _ _ Ho) as Hlen.
    destruct overlap as [|o overlap]; [done|].
    unfold apply_rows, getattr. simpl.
    rewrite lookup_insert_ne by done.
    by rewrite (well_formed_lookup_None _ _ _ Hwf Hrow Hb).
Qed.

(** X1: on a well-formed table with at least one round, cell 3 stops at the
    first column it reads and does not find, with the attribute error of
    that column: trevor_points_potential before trevor_points_scored, and
    sarah_points_scored only after both. *)
Theorem derivation_missing_column (raw : DataFrame Z) (name : string) :
  well_formed raw →
  rows raw ≠ [] →
  first_missing derivation_reads raw = Some name →
  boggle_data_df raw = Err (AttributeError name).
Proof.
  intros Hwf Hne.
  destruct (derivation_missing_column_cases raw Hwf Hne) as (Hp & Hs & Hb).
  unfold first_missing, derivation_reads. rewrite !filter_cons, filter_nil.
  destruct (decide ("trevor_points_potential" ∉ columns raw)) as [|Hp'%dec_stable];
    [intros [= <-]; auto|].
  destruct (decide ("trevor_points_scored" ∉ columns raw)) as [|Hs'%dec_stable];
    [intros [= <-]; auto|].
  destruct (decide ("sarah_points_scored" ∉ columns raw)); [|done].
  intros [= <-]. auto.
Qed.

Lemma derivation_missing_column_witness :
  boggle_data_df trevor_only_rounds = Err (AttributeError "sarah_points_scored").
Proof.
  apply (derivation_missing_column trevor_only_rounds).
  - repeat constructor.
  - discriminate.
  - vm_compute; reflexivity.
Defined.

(** X2: cell 4 refuses a well-formed table that lacks game_date or one of
    the two scored columns with a key error that names a column the table
    does not have; when game_date is lacking, that is the column named,
    also on a table without rounds. *)
Theorem aggregation_missing_column (df : DataFrame Z) :
  well_formed df →
  is_Some (first_missing aggregation_reads df) →
  ∃ name, game_level_stats_df df = Err (KeyError name) ∧
    (name ∉ columns df) ∧
    ("game_date" ∉ columns df → name = "game_date").
Proof.
  intros Hwf. unfold first_missing, aggregation_reads.
  rewrite filter_cons.
  destruct (decide ("game_date" ∉ columns df)) as [Hd|Hd%dec_stable].
  { intros _. exists "game_date". split; [|done].
    unfold game_level_stats_df, groupby_agg, column.
    by rewrite decide_False. }
  intros Hname.
  assert (∃ keys, column df "game_date" = Ok keys) as [keys Hkeys].
  { unfold column. rewrite decide_True by done. apply traverse_total.
    apply Forall_forall. intros row Hrow.
    destruct (well_formed_lookup_Some df "game_date" row Hwf Hrow Hd) as [v ->].
    by eexists. }
  unfold game_level_stats_df, groupby_agg. rewrite Hkeys. simpl.
  destruct (missing_sources df game_aggs) as [|name rest] eqn:Hm.
  - exfalso. apply missing_sources_nil in Hm.
    rewrite !filter_cons, filter_nil in Hname.
    unfold game_aggs in Hm. rewrite !Forall_cons in Hm. simpl in Hm.
    destruct Hm as (Ht & _ & _ & Hs & _).
    rewrite (decide_False (P := "trevor_points_scored" ∉ columns df)) in Hname
      by (intros Hn; by apply Hn).
    rewrite (decide_False (P := "sarah_points_scored" ∉ columns df)) in Hname
      by (intros Hn; by apply Hn).
    by destruct Hname.
  - apply missing_sources_head in Hm as [Hm _].
    exists name. simpl. split; [done|]. split; [done|].
    by intros ?.
Qed.

Lemma aggregation_missing_column_witness :
  ∃ name, game_level_stats_df undated_rounds = Err (KeyError name) ∧
    (name ∉ columns undated_rounds) ∧
    ("game_date" ∉ columns undated_rounds → name = "game_date").
Proof.
  apply (aggregation_missing_column undated_rounds).
  - repeat constructor.
  - eexists. vm_compute; reflexivity.
Defined.

(** ** Further properties: shape of the two tables *)

Lemma game_level_stats_df_well_formed df out :
  game_level_stats_df df = Ok out →
  columns out = game_level_columns ∧ well_formed out.
Proof.
  intros (keys & _ & Hcols & H)%game_level_stats_df_rows. split; [done|].
  unfold well_formed. rewrite Hcols.
  eapply Forall2_Forall_r; [exact H|]. apply Forall_true.
  intros k row (tmin & tmax & smin & smax & _ & _ & _ & _ & ->).
  unfold game. simpl. by rewrite !dom_insert_L, dom_empty_L.
Qed.

(** X3: from a well-formed table the run hands on two well-formed tables:
    in each, every row has a cell under every column label and under no
    other; the game-level table has exactly the eight columns game_date,
    the six statistics and winner, in that order. *)
Theorem pipeline_well_formed (raw round_level : DataFrame Z) (game_level : DataFrame cell) :
  well_formed raw →
  pipeline raw = Ok (round_level, game_level) →
  well_formed round_level ∧
  well_formed game_level ∧
  columns game_level = game_level_columns.
Proof.
  unfold pipeline. intros Hwf H. inv_bind H. injection H as <- <-.
  split; [by eapply boggle_data_df_well_formed|].
  by apply game_level_stats_df_well_formed in E0 as [? ?].
Qed.

Lemma pipeline_well_formed_witness :
  well_formed season_round_level ∧
  well_formed season_game_level ∧
  columns season_game_level = game_level_columns.
Proof.
  apply (pipeline_well_formed season_rounds).
  - repeat constructor.
  - vm_compute; reflexivity.
Defined.

Lemma length_remove_dups_le (l : list Z) : (length (remove_dups l) ≤ length l)%nat.
Proof.
  apply submseteq_length, NoDup_submseteq; [apply NoDup_remove_dups|].
  intros x. by rewrite elem_of_remove_dups.
Qed.

Lemma length_group_keys_le keys : (length (group_keys keys) ≤ length keys)%nat.
Proof.
  unfold group_keys. rewrite merge_sort_Permutation. apply length_remove_dups_le.
Qed.

(** X4: the game-level table never has more rows than the table of rounds
    it is aggregated from. *)
Theorem games_at_most_rounds (df : DataFrame Z) (out : DataFrame cell) :
  game_level_stats_df df = Ok out →
  (length (rows out) ≤ length (rows df))%nat.
Proof.
  intros (keys & Hkeys & _ & H)%game_level_stats_df_rows.
  apply Forall2_length in H.
  assert (length keys = length (rows df)) as Hlen.
  { rewrite <-(length_fmap Some keys), <-Hkeys. apply length_fmap. }
  rewrite <-H, <-Hlen. apply length_group_keys_le.
Qed.

Lemma games_at_most_rounds_witness :
  game_level_stats_df season_round_level = Ok season_game_level ∧
  (length (rows season_game_level) ≤ length (rows season_round_level))%nat.
Proof.
  split; [vm_compute; reflexivity|].
  apply (games_at_most_rounds season_round_level). vm_compute; reflexivity.
Defined.

(** ** Further properties: what the game-level table depends on *)

Lemma traverse_ext_Forall2 {A A' B} (f : A → result B) (g : A' → result B) l l' :
  Forall2 (λ x y, f x = g y) l l' → traverse f l = traverse g l'.
Proof. induction 1 as [|x y l l' Hxy _ IH]; simpl; [done|]. by rewrite Hxy, IH. Qed.

Lemma traverse_ext {A B} (f g : A → result B) l :
  (∀ x, x ∈ l → f x = g x) → traverse f l = traverse g l.
Proof.
  intros H. apply traverse_ext_Forall2, Forall2_same_length_lookup.
  split; [done|]. intros i x y Hx Hy. simplify_eq.
  apply H. by eapply list_elem_of_lookup_2.
Qed.

Lemma group_rows_agree k (rs rs' : list (gmap string Z)) :
  Forall2 (λ row row' : gmap string Z,
      ∀ name, name ∈ aggregation_reads → row !! name = row' !! name) rs rs' →
  Forall2 (λ row row' : gmap string Z,
      ∀ name, name ∈ aggregation_reads → row !! name = row' !! name)
    (group_rows "game_date" k rs) (group_rows "game_date" k rs').
Proof.
  assert ("game_date" ∈ aggregation_reads) as Hd by compute_done.
  unfold group_rows. induction 1 as [|row row' rs rs' Hrow _ IH]; [constructor|].
  rewrite !filter_cons, <-(Hrow _ Hd).
  destruct (decide _); [constructor; [exact Hrow | exact IH] | exact IH].
Qed.

Section same_rounds.
(** Two tables whose rows agree, position by position, in the three columns
    cell 4 reads, and that have or lack these columns alike. *)
Context (df df' : DataFrame Z).
Hypothesis Hcolumns : ∀ name, name ∈ aggregation_reads →
  name ∈ columns df ↔ name ∈ columns df'.
Hypothesis Hrows : Forall2 (λ row row' : gmap string Z,
  ∀ name, name ∈ aggregation_reads → row !! name = row' !! name) (rows df) (rows df').

Lemma same_rounds_column : column df "game_date" = column df' "game_date".
Proof.
  unfold column.
  assert ("game_date" ∈ aggregation_reads) as Hd by compute_done.
  destruct (decide ("game_date" ∈ columns df)) as [Hin|Hin];
    destruct (decide ("game_date" ∈ columns df')) as [Hin'|Hin'];
    [| by apply Hcolumns in Hin | by apply Hcolumns in Hin' | done].
  apply traverse_ext_Forall2. eapply Forall2_impl; [exact Hrows|].
  intros row row' Hrow. by rewrite (Hrow _ Hd).
Qed.

Lemma same_rounds_missing :
  missing_sources df game_aggs = missing_sources df' game_aggs.
Proof.
  assert ("trevor_points_scored" ∈ columns df ↔ "trevor_points_scored" ∈ columns df')
    as Ht by (apply Hcolumns; compute_done).
  assert ("sarah_points_scored" ∈ columns df ↔ "sarah_points_scored" ∈ columns df')
    as Hs by (apply Hcolumns; compute_done).
  unfold missing_sources. do 2 f_equal.
  unfold game_aggs. rewrite !fmap_cons, fmap_nil. simpl.
  rewrite !filter_cons, !filter_nil.
  repeat destruct (decide _); tauto.
Qed.

Lemma same_rounds_group k :
  Forall2 (λ row row' : gmap string Z,
      ∀ name, name ∈ aggregation_reads → row !! name = row' !! name)
    (group_rows "game_date" k (rows df)) (group_rows "game_date" k (rows df')).
Proof. by apply group_rows_agree. Qed.

Lemma same_rounds_cells name e k :
  name ∈ aggregation_reads →
  traverse (λ row : gmap string Z,
      match row !! name with Some v => Ok v | None => Err e end)
    (group_rows "game_date" k (rows df))
  = traverse (λ row : gmap string Z,
      match row !! name with Some v => Ok v | None => Err e end)
    (group_rows "game_date" k (rows df')).
Proof.
  intros Hname. apply traverse_ext_Forall2.
  eapply Forall2_impl; [apply same_rounds_group|].
  intros row row' Hrow. by rewrite (Hrow _ Hname).
Qed.

Lemma same_rounds_aggregate k :
  aggregate_group game_aggs (group_rows "game_date" k (rows df))
  = aggregate_group game_aggs (group_rows "game_date" k (rows df')).
Proof.
  unfold aggregate_group, game_aggs. simpl.
  rewrite !(same_rounds_cells "trevor_points_scored" _ k) by compute_done.
  rewrite !(same_rounds_cells "sarah_points_scored" _ k) by compute_done.
  done.
Qed.

Lemma same_rounds_same_games : game_level_stats_df df = game_level_stats_df df'.
Proof.
  unfold game_level_stats_df, groupby_agg.
  rewrite same_rounds_column, same_rounds_missing.
  destruct (column df' "game_date") as [keys|]; [|done]. simpl.
  destruct (missing_sources df' game_aggs); [|done].
  rewrite (traverse_ext _ (λ k, aggregate_group game_aggs
    (group_rows "game_date" k (rows df'))) _ (λ k _, same_rounds_aggregate k)).
  done.
Qed.
End same_rounds.

Lemma setitem_columns_elem_of {A} (df : DataFrame A) name series c :
  c ≠ name → c ∈ columns (setitem df name series) ↔ c ∈ columns df.
Proof.
  intros Hc. unfold setitem. simpl. destruct (decide _); [done|].
  rewrite elem_of_app, list_elem_of_singleton. split; [by intros [?|?]|by left].
Qed.

Lemma boggle_data_df_columns_elem_of raw out c :
  boggle_data_df raw = Ok out →
  c ≠ "point_overlap" → c ≠ "sarah_points_potential" →
  c ∈ columns out ↔ c ∈ columns raw.
Proof.
  intros (? & ? & -> & _)%boggle_data_df_inv Ho Hp.
  by rewrite !setitem_columns_elem_of.
Qed.

(** X5: the game-level table does not depend on the two derived columns:
    cell 4 gives for the round-level table what it gives for the table that
    was read, failures included. *)
Theorem aggregation_ignores_derived (raw out : DataFrame Z) :
  boggle_data_df raw = Ok out →
  game_level_stats_df out = game_level_stats_df raw.
Proof.
  intros H. apply same_rounds_same_games.
  - intros name Hname. apply (boggle_data_df_columns_elem_of _ _ _ H).
    + intros ->. revert Hname. compute_done.
    + intros ->. revert Hname. compute_done.
  - apply Forall2_flip. eapply Forall2_impl; [apply (boggle_data_df_rows _ _ H)|].
    intros row row' (p & s & b & _ & _ & _ & ->) name Hname. simpl.
    rewrite !lookup_insert_ne; [done| |]; intros <-; revert Hname; compute_done.
Qed.

Lemma aggregation_ignores_derived_witness :
  game_level_stats_df season_round_level = game_level_stats_df season_rounds.
Proof.
  apply (aggregation_ignores_derived season_rounds). vm_compute; reflexivity.
Defined.

Lemma boggle_data_df_derived_columns raw out :
  boggle_data_df raw = Ok out →
  "point_overlap" ∈ columns out ∧ "sarah_points_potential" ∈ columns out.
Proof.
  intros (? & ? & -> & _)%boggle_data_df_inv.
  split; [apply setitem_columns_mono|]; apply setitem_columns_name.
Qed.

Lemma derived_row_again row row' row'' :
  derived_row row row' → derived_row row' row'' → row'' = row'.
Proof.
  intros (p & s & b & Hp & Hs & Hb & ->) (p' & s' & b' & Hp' & Hs' & Hb' & ->).
  rewrite !lookup_insert_ne in Hp', Hs', Hb' by done. simplify_eq.
  apply map_eq. intros name.
  destruct (decide (name = "sarah_points_potential")) as [->|];
    [by rewrite !lookup_insert_eq|].
  rewrite !(lookup_insert_ne _ "sarah_points_potential") by done.
  destruct (decide (name = "point_overlap")) as [->|];
    [by rewrite !lookup_insert_eq|].
  by rewrite !lookup_insert_ne.
Qed.

(** X6: on a table that has the three columns cell 3 reads, cell 3 run on
    its own outcome changes nothing: the two derived columns are already
    there, keep their places, and get the cells they had. *)
Theorem derivation_idempotent (raw out : DataFrame Z) :
  derivation_reads ⊆ columns raw →
  boggle_data_df raw = Ok out →
  boggle_data_df out = Ok out.
Proof.
  intros Hcols H. pose proof (boggle_data_df_rows _ _ H) as Hrows.
  destruct (boggle_data_df_total out) as [out' H'].
  { intros name Hname. by apply (boggle_data_df_columns_mono _ _ _ H), Hcols. }
  { eapply Forall2_Forall_r; [exact Hrows|]. apply Forall_true.
    intros row row' (p & s & b & Hp & Hs & Hb & ->). unfold readable.
    rewrite !lookup_insert_ne by done. rewrite Hp, Hs, Hb. eauto. }
  rewrite H'. f_equal.
  pose proof (boggle_data_df_rows _ _ H') as Hrows'.
  pose proof (boggle_data_df_columns _ _ H') as Hcols'.
  destruct (boggle_data_df_derived_columns _ _ H) as [Ho Hp].
  simpl in Hcols'. rewrite (decide_True _ _ Ho), (decide_True _ _ Hp) in Hcols'.
  assert (rows out' = rows out) as Hr.
  { apply list_eq_Forall2, Forall2_flip.
    eapply Forall2_impl; [|intros ? ? Heq; exact Heq].
    eapply Forall2_Forall_r in Hrows as Hall;
      [|apply Forall_true; intros row row' Hd; exact (ex_intro _ row Hd)].
    clear -Hrows' Hall. induction Hrows' as [|r r' rs rs' Hr _ IH];
      [constructor|].
    apply Forall_cons in Hall as [[r0 Hr0] Hall].
    constructor; [by eapply derived_row_again | by apply IH]. }
  destruct out, out'. simpl in *. by subst.
Qed.

Lemma derivation_idempotent_witness :
  boggle_data_df season_rounds = Ok season_round_level ∧
  boggle_data_df season_round_level = Ok season_round_level.
Proof.
  split; [vm_compute; reflexivity|].
  apply (derivation_idempotent season_rounds).
  - compute_done.
  - vm_compute; reflexivity.
Defined.

(** Without the three columns the rerun can fail: on the table without rows
    whose only column is sarah_points_scored the probe of the first callback
    fails, the one-column copy goes in as point_overlap, and the second
    callback finds both labels it reads; on the outcome, a table of three
    columns, the copy can no longer be assigned. *)
Lemma derivation_rerun_lone_column :
  boggle_data_df (no_rounds ["sarah_points_scored"])
    = Ok (no_rounds ["sarah_points_scored"; "point_overlap";
                     "sarah_points_potential"]) ∧
  ∃ msg, boggle_data_df (no_rounds ["sarah_points_scored"; "point_overlap";
                                    "sarah_points_potential"])
    = Err (ValueError msg).
Proof. split; [|eexists]; vm_compute; reflexivity. Qed.

(** ** Further properties: the order of the rounds *)

(** What a run of cell 4 to the end says about the table it got. *)
Lemma game_level_stats_df_Ok_inv df out :
  game_level_stats_df df = Ok out →
  "game_date" ∈ columns df ∧
  "trevor_points_scored" ∈ columns df ∧
  "sarah_points_scored" ∈ columns df ∧
  Forall aggregable (rows df).
Proof.
  unfold game_level_stats_df. intros H.
  destruct (groupby_agg df "game_date" game_aggs) as [g|] eqn:E; [|done].
  clear H.
  destruct (groupby_agg_Ok _ _ _ _ E)
    as (keys & Hkeys & _ & _ & _ & Hstats & Hd & Hm).
  clear E. apply missing_sources_nil in Hm.
  unfold game_aggs in Hm. rewrite !Forall_cons in Hm. simpl in Hm.
  destruct Hm as (Ht & _ & _ & Hs & _).
  split; [done|]. split; [done|]. split; [done|].
  { apply Forall_forall. intros row Hrow.
    assert (∃ k, row !! "game_date" = Some k ∧ k ∈ keys) as (k & Hk & Hin).
    { apply list_elem_of_lookup_1 in Hrow as [i Hi].
      assert (((λ row : gmap string Z, row !! "game_date") <$> rows df) !! i
              = Some (row !! "game_date")) as Hi'
        by (by rewrite list_lookup_fmap, Hi).
      rewrite Hkeys, list_lookup_fmap in Hi'.
      destruct (keys !! i) as [k|] eqn:Hk; [|done]. injection Hi' as Hi'.
      exists k. split; [done|]. by eapply list_elem_of_lookup_2. }
    apply elem_of_group_keys in Hin.
    apply list_elem_of_lookup_1 in Hin as [j Hj].
    destruct (Forall2_lookup_l _ _ _ _ _ Hstats Hj) as (stats & _ & Hstat).
    apply aggregate_group_game in Hstat
      as (ts & ss & _ & _ & _ & _ & Hts & Hss & _).
    assert (row ∈ group_rows "game_date" k (rows df)) as Hgrp
      by (by apply list_elem_of_filter).
    apply list_elem_of_lookup_1 in Hgrp as [n Hn].
    assert (∀ name vs,
      (λ row : gmap string Z, row !! name) <$> group_rows "game_date" k (rows df)
        = Some <$> vs → is_Some (row !! name)) as Hsome.
    { intros name vs Hvs.
      assert (((λ row : gmap string Z, row !! name) <$>
                 group_rows "game_date" k (rows df)) !! n = Some (row !! name)) as Hn'
        by (by rewrite list_lookup_fmap, Hn).
      rewrite Hvs, list_lookup_fmap in Hn'.
      destruct (vs !! n); [|done]. injection Hn' as <-. by eexists. }
    repeat split; [by rewrite Hk | by eapply Hsome | by eapply Hsome]. }
Qed.

Lemma sum_Z_Permutation l l' : l ≡ₚ l' → sum_Z l = sum_Z l'.
Proof. induction 1; simpl; lia. Qed.

Lemma is_minimum_Permutation m m' l l' :
  l ≡ₚ l' → is_minimum m l → is_minimum m' l' → m = m'.
Proof.
  intros Hp [Hin Hle] [Hin' Hle']. rewrite Forall_forall in Hle, Hle'.
  rewrite Hp in Hin. rewrite <-Hp in Hin'.
  specialize (Hle _ Hin'). specialize (Hle' _ Hin). lia.
Qed.

Lemma is_maximum_Permutation m m' l l' :
  l ≡ₚ l' → is_maximum m l → is_maximum m' l' → m = m'.
Proof.
  intros Hp [Hin Hle] [Hin' Hle']. rewrite Forall_forall in Hle, Hle'.
  rewrite Hp in Hin. rewrite <-Hp in Hin'.
  specialize (Hle _ Hin'). specialize (Hle' _ Hin). lia.
Qed.

Lemma group_keys_Permutation keys keys' :
  keys ≡ₚ keys' → group_keys keys = group_keys keys'.
Proof.
  intros Hp. apply (StronglySorted_unique Z.le).
  - unfold group_keys. apply StronglySorted_merge_sort; apply _.
  - unfold group_keys. apply StronglySorted_merge_sort; apply _.
  - apply NoDup_Permutation; [apply NoDup_group_keys..|].
    intros k. by rewrite !elem_of_group_keys, Hp.
Qed.

Lemma scores_Permutation name d (df df' : DataFrame Z) :
  rows df ≡ₚ rows df' → scores name d df ≡ₚ scores name d df'.
Proof. intros Hp. unfold scores. by rewrite Hp. Qed.

Lemma game_row_Permutation (df df' : DataFrame Z) d row row' :
  rows df ≡ₚ rows df' → game_row df d row → game_row df' d row' → row = row'.
Proof.
  intros Hp (tmin & tmax & smin & smax & Htmin & Htmax & Hsmin & Hsmax & ->)
    (tmin' & tmax' & smin' & smax' & Htmin' & Htmax' & Hsmin' & Hsmax' & ->).
  pose proof (scores_Permutation "trevor_points_scored" d _ _ Hp) as Ht.
  pose proof (scores_Permutation "sarah_points_scored" d _ _ Hp) as Hs.
  rewrite (is_minimum_Permutation _ _ _ _ Ht Htmin Htmin').
  rewrite (is_maximum_Permutation _ _ _ _ Ht Htmax Htmax').
  rewrite (is_minimum_Permutation _ _ _ _ Hs Hsmin Hsmin').
  rewrite (is_maximum_Permutation _ _ _ _ Hs Hsmax Hsmax').
  by rewrite (sum_Z_Permutation _ _ Ht), (sum_Z_Permutation _ _ Hs).
Qed.

(** X7: the game-level table does not depend on the order in which the
    rounds stand in the table: the same rounds in another order, under the
    same columns, give the same table. *)
Theorem aggregation_order_independent (df df' : DataFrame Z) (out : DataFrame cell) :
  columns df' = columns df →
  rows df' ≡ₚ rows df →
  game_level_stats_df df = Ok out →
  game_level_stats_df df' = Ok out.
Proof.
  intros Hcols Hperm H.
  destruct (game_level_stats_df_Ok_inv _ _ H) as (Hd & Ht & Hs & Hrows).
  destruct (game_level_stats_df_total df') as [out' H'].
  1-3: by rewrite Hcols.
  { by rewrite Hperm. }
  rewrite H'. f_equal.
  destruct (game_level_stats_df_rows _ _ H) as (keys & Hkeys & Hc & Hr).
  destruct (game_level_stats_df_rows _ _ H') as (keys' & Hkeys' & Hc' & Hr').
  apply omap_lookup_Some in Hkeys, Hkeys'.
  assert (group_keys keys' = group_keys keys) as Hk.
  { apply group_keys_Permutation. by rewrite <-Hkeys, <-Hkeys', Hperm. }
  rewrite Hk in Hr'.
  assert (rows out' = rows out) as Hrs.
  { clear -Hr Hr' Hperm. revert Hr'. generalize (rows out').
    induction Hr as [|k row ks rs Hrow _ IH]; intros rs' Hr'.
    - by apply Forall2_nil_inv_l in Hr'.
    - apply Forall2_cons_inv_l in Hr' as (row' & rs'' & Hrow' & Hr' & ->).
      f_equal; [|by apply IH].
      symmetry.
      eapply game_row_Permutation; [symmetry; exact Hperm | exact Hrow | exact Hrow']. }
  destruct out, out'. simpl in *. by subst.
Qed.

Lemma aggregation_order_independent_witness :
  game_level_stats_df season_rounds_by_date = Ok season_game_level.
Proof.
  apply (aggregation_order_independent season_rounds).
  - reflexivity.
  - apply (bool_decide_unpack _). vm_compute. exact I.
  - vm_compute; reflexivity.
Defined.

(** ** Further properties: the looks at the tables *)

Lemma rows_have_key (df : DataFrame Z) name keys row :
  (λ row : gmap string Z, row !! name) <$> rows df = Some <$> keys →
  row ∈ rows df → ∃ k, k ∈ keys ∧ row !! name = Some k.
Proof.
  intros Hkeys [i Hi]%list_elem_of_lookup_1.
  assert (((λ row : gmap string Z, row !! name) <$> rows df) !! i
          = Some (row !! name)) as Hi'
    by (by rewrite list_lookup_fmap, Hi).
  rewrite Hkeys, list_lookup_fmap in Hi'.
  destruct (keys !! i) as [k|] eqn:Hk; [|done]. injection Hi' as Hi'.
  exists k. split; [by eapply list_elem_of_lookup_2 | done].
Qed.

(** The cells of one column of the game-level table, read off the dates. *)
Lemma game_level_column (out : DataFrame cell) (ks : list Z) name (f : Z → cell) :
  columns out = game_level_columns →
  name ∈ game_level_columns →
  Forall2 (λ k row, row !! name = Some (f k)) ks (rows out) →
  column out name = Ok (f <$> ks).
Proof.
  intros Hcols Hname Hrows. unfold column. rewrite Hcols, decide_True by done.
  apply traverse_Ok, Forall2_fmap_r, Forall2_flip.
  eapply Forall2_impl; [exact Hrows|]. by intros k row ->.
Qed.

Lemma wrap64_add_r a b : wrap64 (a + wrap64 b) = wrap64 (a + b).
Proof. by rewrite (Z.add_comm a), wrap64_add_l, (Z.add_comm b). Qed.

Lemma foldl_add_cell_ints (a : Z) (l : list Z) :
  foldl (λ acc c', let* a := acc in add_cell a c') (Ok (Int (wrap64 a)))
    (Int <$> l)
  = Ok (Int (wrap64 (a + sum_Z l))).
Proof.
  revert a. induction l as [|y l IH]; intros a.
  - simpl. do 3 f_equal. lia.
  - rewrite fmap_cons. simpl. rewrite wrap64_add_l, IH. do 3 f_equal. lia.
Qed.

(** The sum of a series of 64-bit numbers is their sum brought within the
    64 bits. *)
Lemma series_sum_ints (l : list Z) :
  Forall int64 l → series_sum (Int <$> l) = Ok (Int (wrap64 (sum_Z l))).
Proof.
  destruct l as [|x l]; [done|]. intros [Hx _]%Forall_cons.
  rewrite fmap_cons. unfold series_sum.
  rewrite <-(wrap64_small x Hx) at 1. by rewrite foldl_add_cell_ints.
Qed.

Lemma wrap64_sum_wrap {A} (f : A → Z) ks :
  wrap64 (sum_Z ((λ k, wrap64 (f k)) <$> ks)) = wrap64 (sum_Z (f <$> ks)).
Proof.
  induction ks as [|k ks IH]; [done|]. rewrite !fmap_cons. simpl.
  rewrite wrap64_add_l, <-wrap64_add_r, IH, wrap64_add_r. done.
Qed.

Lemma series_sum_fmap_ints {A} (f : A → Z) ks :
  series_sum ((λ k, Int (wrap64 (f k))) <$> ks)
  = Ok (Int (wrap64 (sum_Z (f <$> ks)))).
Proof.
  rewrite <-wrap64_sum_wrap, <-series_sum_ints.
  - by rewrite <-list_fmap_compose.
  - apply Forall_fmap, Forall_true. intros k. apply wrap64_int64.
Qed.

Lemma sum_Z_cons x l : sum_Z (x :: l) = x + sum_Z l.
Proof. done. Qed.

Lemma sum_Z_fmap_add {A} (f g : A → Z) ks :
  sum_Z ((λ k, f k + g k) <$> ks) = sum_Z (f <$> ks) + sum_Z (g <$> ks).
Proof.
  induction ks as [|k ks IH]; [done|]. rewrite !fmap_cons. simpl.
  rewrite IH. lia.
Qed.

Lemma sum_Z_indicator_0 (ks : list Z) k0 v :
  k0 ∉ ks → sum_Z ((λ k, if decide (k = k0) then v else 0) <$> ks) = 0.
Proof.
  induction ks as [|k ks IH]; [done|]. intros [Hne Hk]%not_elem_of_cons.
  rewrite fmap_cons. simpl. rewrite decide_False by done. by rewrite IH.
Qed.

Lemma sum_Z_indicator (ks : list Z) k0 v :
  NoDup ks → k0 ∈ ks →
  sum_Z ((λ k, if decide (k = k0) then v else 0) <$> ks) = v.
Proof.
  induction 1 as [|k ks Hk Hnd IH]; [by intros ?%elem_of_nil|].
  rewrite fmap_cons. simpl. intros Hin.
  destruct (decide (k = k0)) as [<-|Hne].
  - rewrite sum_Z_indicator_0 by done. lia.
  - apply elem_of_cons in Hin as [?|Hin]; [done|]. by rewrite IH.
Qed.

(** The scores of the games, taken together, are the scores of the
    rounds. *)
Lemma sum_scores_partition name (df : DataFrame Z) ks :
  NoDup ks →
  (∀ row, row ∈ rows df → ∃ k, k ∈ ks ∧ row !! "game_date" = Some k) →
  sum_Z ((λ k, sum_Z (scores name k df)) <$> ks)
  = sum_Z (omap (λ row : gmap string Z, row !! name) (rows df)).
Proof.
  intros Hnd. unfold scores. induction (rows df) as [|row rs IH]; intros Hkey.
  - clear Hnd Hkey. induction ks as [|k ks IHks]; [done|].
    by rewrite fmap_cons, sum_Z_cons, IHks.
  - destruct (Hkey row) as (k0 & Hk0 & Hrow); [left|].
    specialize (IH (λ row' Hrow', Hkey row' (list_elem_of_further _ _ _ Hrow'))).
    set (v0 := sum_Z (omap (λ row : gmap string Z, row !! name) [row])).
    assert (sum_Z (omap (λ row : gmap string Z, row !! name) (row :: rs))
            = v0 + sum_Z (omap (λ row : gmap string Z, row !! name) rs)) as ->
      by (unfold v0; csimpl; destruct (row !! name); simpl; lia).
    rewrite <-IH, <-(sum_Z_indicator ks k0 v0 Hnd Hk0) at 1.
    rewrite <-sum_Z_fmap_add. f_equal. apply list_fmap_ext.
    intros _ k _. rewrite filter_cons, Hrow.
    destruct (decide (Some k0 = Some k)) as [[= ->]|Hne].
    + rewrite decide_True by done. unfold v0. csimpl.
      destruct (row !! name); simpl; lia.
    + rewrite decide_False by (by intros ->). done.
Qed.

(** X8: on a table without blank cells whose scores are 64-bit integers,
    the sum of trevor_total_points over the game-level table is the sum of
    trevor_points_scored over the rounds, both as the library computes a
    sum: the sum of the scores brought within 64 bits, and so the sum itself
    when that is a 64-bit integer. The same for Sarah. *)
Theorem totals_add_up (df : DataFrame Z) (out : DataFrame cell) :
  Forall int64_scores (rows df) →
  game_level_stats_df df = Ok out →
  ∃ trevor_totals trevor_scores sarah_totals sarah_scores,
    column out "trevor_total_points" = Ok trevor_totals ∧
    column df "trevor_points_scored" = Ok trevor_scores ∧
    series_sum trevor_totals = series_sum (Int <$> trevor_scores) ∧
    (∃ t, series_sum trevor_totals = Ok (Int t) ∧
          wraps_to t (sum_Z trevor_scores) ∧
          (int64 (sum_Z trevor_scores) → t = sum_Z trevor_scores)) ∧
    column out "sarah_total_points" = Ok sarah_totals ∧
    column df "sarah_points_scored" = Ok sarah_scores ∧
    series_sum sarah_totals = series_sum (Int <$> sarah_scores) ∧
    (∃ t, series_sum sarah_totals = Ok (Int t) ∧
          wraps_to t (sum_Z sarah_scores) ∧
          (int64 (sum_Z sarah_scores) → t = sum_Z sarah_scores)).
Proof.
  intros Hint H.
  destruct (game_level_stats_df_Ok_inv _ _ H) as (_ & Ht & Hs & Hrows).
  destruct (game_level_stats_df_rows _ _ H) as (keys & Hkeys & Hcols & Hr).
  assert (∃ vs, column df "trevor_points_scored" = Ok vs) as [ts Hts].
  { unfold column. rewrite decide_True by done. apply traverse_total.
    eapply Forall_impl; [exact Hrows|]. intros row (_ & [v ->] & _). by eexists. }
  assert (∃ vs, column df "sarah_points_scored" = Ok vs) as [ss Hss].
  { unfold column. rewrite decide_True by done. apply traverse_total.
    eapply Forall_impl; [exact Hrows|]. intros row (_ & _ & [v ->]). by eexists. }
  exists ((λ k, Int (wrap64 (sum_Z (scores "trevor_points_scored" k df))))
            <$> group_keys keys), ts,
         ((λ k, Int (wrap64 (sum_Z (scores "sarah_points_scored" k df))))
            <$> group_keys keys), ss.
  assert (∀ row, row ∈ rows df →
    ∃ k, k ∈ group_keys keys ∧ row !! "game_date" = Some k) as Hkey.
  { intros row Hrow. destruct (rows_have_key _ _ _ _ Hkeys Hrow) as (k & Hk & ?).
    exists k. by rewrite elem_of_group_keys. }
  apply column_Ok in Hts as Hts'. destruct Hts' as [_ Hts'%omap_lookup_Some].
  apply column_Ok in Hss as Hss'. destruct Hss' as [_ Hss'%omap_lookup_Some].
  assert (Forall int64 ts) as Hts64.
  { rewrite <-Hts'. apply Forall_forall.
    intros v (row & Hrow & Hv)%list_elem_of_omap.
    rewrite Forall_forall in Hint. by apply (proj1 (Hint row Hrow)). }
  assert (Forall int64 ss) as Hss64.
  { rewrite <-Hss'. apply Forall_forall.
    intros v (row & Hrow & Hv)%list_elem_of_omap.
    rewrite Forall_forall in Hint. by apply (proj2 (Hint row Hrow)). }
  assert (∀ name vs,
    omap (λ row : gmap string Z, row !! name) (rows df) = vs →
    series_sum ((λ k, Int (wrap64 (sum_Z (scores name k df)))) <$> group_keys keys)
    = Ok (Int (wrap64 (sum_Z vs)))) as Hsum.
  { intros name vs <-. rewrite series_sum_fmap_ints.
    by rewrite (sum_scores_partition _ _ _ (NoDup_group_keys keys) Hkey). }
  assert (∀ s, wraps_to (wrap64 s) s ∧ (int64 s → wrap64 s = s)) as Hwrap.
  { intros s. split; [split|]; auto using wrap64_int64, wrap64_divide, wrap64_small. }
  split; [|split; [done|split; [|split; [|split; [|split; [done|split]]]]]].
  - apply game_level_column; [done | compute_done |].
    eapply Forall2_impl; [exact Hr|].
    intros k row (? & ? & ? & ? & _ & _ & _ & _ & ->). unfold game. simpl.
    by simplify_map_eq.
  - by rewrite (Hsum _ _ Hts'), series_sum_ints.
  - eexists. split; [by apply Hsum|]. apply Hwrap.
  - apply game_level_column; [done | compute_done |].
    eapply Forall2_impl; [exact Hr|].
    intros k row (? & ? & ? & ? & _ & _ & _ & _ & ->). unfold game. simpl.
    by simplify_map_eq.
  - by rewrite (Hsum _ _ Hss'), series_sum_ints.
  - eexists. split; [by apply Hsum|]. apply Hwrap.
Qed.

Lemma totals_add_up_witness :
  column season_game_level "trevor_total_points" = Ok [Int 8; Int 10; Int 8] ∧
  column season_round_level "trevor_points_scored" = Ok [7; 5; 4; 3; 1; 6] ∧
  series_sum [Int 8; Int 10; Int 8] = Ok (Int 26) ∧
  ∃ trevor_totals trevor_scores sarah_totals sarah_scores,
    column season_game_level "trevor_total_points" = Ok trevor_totals ∧
    column season_round_level "trevor_points_scored" = Ok trevor_scores ∧
    series_sum trevor_totals = series_sum (Int <$> trevor_scores) ∧
    (∃ t, series_sum trevor_totals = Ok (Int t) ∧
          wraps_to t (sum_Z trevor_scores) ∧
          (int64 (sum_Z trevor_scores) → t = sum_Z trevor_scores)) ∧
    column season_game_level "sarah_total_points" = Ok sarah_totals ∧
    column season_round_level "sarah_points_scored" = Ok sarah_scores ∧
    series_sum sarah_totals = series_sum (Int <$> sarah_scores) ∧
    (∃ t, series_sum sarah_totals = Ok (Int t) ∧
          wraps_to t (sum_Z sarah_scores) ∧
          (int64 (sum_Z sarah_scores) → t = sum_Z sarah_scores)).
Proof.
  do 3 (split; [vm_compute; reflexivity|]).
  apply (totals_add_up season_round_level).
  - by_rows.
  - vm_compute; reflexivity.
Defined.

Lemma series_min_spec vs m : series_min vs = Some m → is_minimum m vs.
Proof. destruct vs; intros [= <-]. apply foldl_min_spec. Qed.

Lemma scores_subseteq name k (df : DataFrame Z) v :
  v ∈ scores name k df →
  v ∈ omap (λ row : gmap string Z, row !! name) (rows df).
Proof.
  unfold scores. rewrite !list_elem_of_omap.
  intros (row & [_ Hrow]%list_elem_of_filter & Hv). eauto.
Qed.

(** The least cell of a column is the least of the minima of the games. *)
Lemma least_cell_in_groups name (df : DataFrame Z) keys m :
  (λ row : gmap string Z, row !! "game_date") <$> rows df = Some <$> keys →
  is_minimum m (omap (λ row : gmap string Z, row !! name) (rows df)) →
  (∀ k g, is_minimum g (scores name k df) → m ≤ g) ∧
  (∃ k, k ∈ group_keys keys ∧ ∀ g, is_minimum g (scores name k df) → g = m).
Proof.
  intros Hkeys [Hin Hle]. rewrite Forall_forall in Hle.
  assert (∀ k g, is_minimum g (scores name k df) → m ≤ g) as Hlow.
  { intros k g [Hg _]. by apply Hle, (scores_subseteq name k). }
  split; [done|].
  apply list_elem_of_omap in Hin as (row & Hrow & Hm).
  destruct (rows_have_key _ _ _ _ Hkeys Hrow) as (k & Hk & Hrk).
  exists k. split; [by apply elem_of_group_keys|].
  intros g Hg. pose proof (Hlow k g Hg) as Hmg.
  destruct Hg as [_ Hg]. rewrite Forall_forall in Hg.
  assert (g ≤ m); [|lia]. apply Hg. unfold scores.
  apply list_elem_of_omap. exists row. split; [|done].
  by apply list_elem_of_filter.
Qed.

(** X9: on a round table whose game_date and score cells are all filled,
    the least sarah_points_scored of all rounds is at most every game's
    sarah_min_scoring_round and is the sarah_min_scoring_round of some game;
    the same for Trevor. *)
Theorem least_score_among_games (df : DataFrame Z) (out : DataFrame cell)
    (sarah_scores trevor_scores : list Z) (sarah_least trevor_least : Z) :
  game_level_stats_df df = Ok out →
  column df "sarah_points_scored" = Ok sarah_scores →
  series_min sarah_scores = Some sarah_least →
  column df "trevor_points_scored" = Ok trevor_scores →
  series_min trevor_scores = Some trevor_least →
  Forall (λ row, ∃ s t,
      row !! "sarah_min_scoring_round" = Some (Int s) ∧ sarah_least ≤ s ∧
      row !! "trevor_min_scoring_round" = Some (Int t) ∧ trevor_least ≤ t) (rows out) ∧
  Exists (λ row, row !! "sarah_min_scoring_round" = Some (Int sarah_least)) (rows out) ∧
  Exists (λ row, row !! "trevor_min_scoring_round" = Some (Int trevor_least)) (rows out).
Proof.
  intros H [_ Hs%omap_lookup_Some]%column_Ok Hsm%series_min_spec
    [_ Ht%omap_lookup_Some]%column_Ok Htm%series_min_spec.
  destruct (game_level_stats_df_rows _ _ H) as (keys & Hkeys & _ & Hr).
  rewrite <-Hs in Hsm. rewrite <-Ht in Htm.
  destruct (least_cell_in_groups _ _ _ _ Hkeys Hsm) as (Hslow & ks & Hks & Hsk).
  destruct (least_cell_in_groups _ _ _ _ Hkeys Htm) as (Htlow & kt & Hkt & Htk).
  split; [|split].
  - eapply Forall2_Forall_r; [exact Hr|]. apply Forall_true.
    intros k row (tmin & tmax & smin & smax & Htmin & _ & Hsmin & _ & ->).
    exists smin, tmin. unfold game. simpl.
    split; [by simplify_map_eq|]. split; [by eapply Hslow|].
    split; [by simplify_map_eq|]. by eapply Htlow.
  - apply list_elem_of_lookup_1 in Hks as [i Hi].
    destruct (Forall2_lookup_l _ _ _ _ _ Hr Hi)
      as (row & Hrow & tmin & tmax & smin & smax & _ & _ & Hsmin & _ & ->).
    apply Exists_exists. eexists. split; [by eapply list_elem_of_lookup_2|].
    unfold game. simpl. simplify_map_eq. by rewrite (Hsk _ Hsmin).
  - apply list_elem_of_lookup_1 in Hkt as [i Hi].
    destruct (Forall2_lookup_l _ _ _ _ _ Hr Hi)
      as (row & Hrow & tmin & tmax & smin & smax & Htmin & _ & _ & _ & ->).
    apply Exists_exists. eexists. split; [by eapply list_elem_of_lookup_2|].
    unfold game. simpl. simplify_map_eq. by rewrite (Htk _ Htmin).
Qed.

Lemma least_score_among_games_witness :
  Forall (λ row, ∃ s t,
      row !! "sarah_min_scoring_round" = Some (Int s) ∧ 3 ≤ s ∧
      row !! "trevor_min_scoring_round" = Some (Int t) ∧ 1 ≤ t)
    (rows season_game_level) ∧
  Exists (λ row, row !! "sarah_min_scoring_round" = Some (Int 3))
    (rows season_game_level) ∧
  Exists (λ row, row !! "trevor_min_scoring_round" = Some (Int 1))
    (rows season_game_level).
Proof.
  apply (least_score_among_games season_round_level season_game_level
           [4; 6; 4; 10; 3; 6] [7; 5; 4; 3; 1; 6]);
    vm_compute; reflexivity.
Defined.
Lemma elem_of_first_seen v s : v ∈ first_seen s ↔ v ∈ s.
Proof.
  induction s as [|c s IH]; [done|]. simpl.
  rewrite !elem_of_cons, list_elem_of_filter, IH.
  destruct (decide (v = c)); tauto.
Qed.

Lemma NoDup_first_seen s : NoDup (first_seen s).
Proof.
  induction s as [|c s IH]; [constructor|]. simpl. apply NoDup_cons. split.
  - rewrite list_elem_of_filter. by intros [? _].
  - by apply NoDup_filter.
Qed.

Lemma insert_count_Permutation p l : insert_count p l ≡ₚ p :: l.
Proof.
  induction l as [|q l IH]; [done|]. simpl.
  destruct (decide (q.2 ≤ p.2)%nat); [done|].
  rewrite IH. apply Permutation_swap.
Qed.

Lemma Sorted_insert_count p l :
  Sorted more_frequent l → Sorted more_frequent (insert_count p l).
Proof.
  induction 1 as [|q l Hl IH Hq]; simpl.
  - by repeat constructor.
  - destruct (decide (q.2 ≤ p.2)%nat) as [Hle|Hgt].
    + by repeat constructor.
    + constructor; [done|].
      destruct Hq as [|q' l Hq']; simpl.
      * constructor. unfold more_frequent. lia.
      * destruct (decide (q'.2 ≤ p.2)%nat);
          constructor; unfold more_frequent in *; lia.
Qed.

Lemma value_counts_Permutation s :
  value_counts s ≡ₚ (λ v, (v, occurrences v s)) <$> first_seen s.
Proof.
  unfold value_counts. induction (_ <$> first_seen s) as [|p l IH]; [done|].
  simpl. by rewrite insert_count_Permutation, IH.
Qed.

Lemma Sorted_value_counts s : Sorted more_frequent (value_counts s).
Proof.
  unfold value_counts. induction (_ <$> first_seen s) as [|p l IH]; simpl.
  - constructor.
  - by apply Sorted_insert_count.
Qed.

Lemma elem_of_value_counts s v n :
  (v, n) ∈ value_counts s ↔ v ∈ s ∧ n = occurrences v s.
Proof.
  rewrite value_counts_Permutation, list_elem_of_fmap. split.
  - intros (v' & Heq & Hv). simplify_eq.
    split; [by apply (proj1 (elem_of_first_seen _ _))|done].
  - intros [Hv ->]. exists v. by rewrite elem_of_first_seen.
Qed.

Lemma NoDup_value_counts s : NoDup (value_counts s).*1.
Proof.
  rewrite value_counts_Permutation, <-list_fmap_compose.
  replace (_ <$> first_seen s) with (first_seen s); [apply NoDup_first_seen|].
  induction (first_seen s) as [|v l IH]; [done|]. by rewrite fmap_cons, <-IH.
Qed.

Lemma occurrences_pos v s : v ∈ s ↔ (0 < occurrences v s)%nat.
Proof.
  unfold occurrences. split.
  - intros Hv.
    assert (v ∈ filter (λ c, c = v) s) as Hin by (by apply list_elem_of_filter).
    destruct (filter _ s); [by apply elem_of_nil in Hin | simpl; lia].
  - intros Hpos. destruct (filter (λ c, c = v) s) as [|c l] eqn:Hf;
      [simpl in Hpos; lia|].
    assert (c ∈ filter (λ c, c = v) s) as [-> ?]%list_elem_of_filter; [|done].
    rewrite Hf. left.
Qed.

Lemma occurrences_two (a b : cell) s :
  a ≠ b → Forall (λ c, c = a ∨ c = b) s →
  (occurrences a s + occurrences b s = length s)%nat.
Proof.
  intros Hab. unfold occurrences. induction 1 as [|c s Hc _ IH]; [done|].
  rewrite !filter_cons. destruct Hc as [->| ->].
  - rewrite decide_True, decide_False by done. simpl. lia.
  - rewrite decide_False, decide_True by done. simpl. lia.
Qed.

(** The labels of a series over two labels, in the order they are first
    seen. *)
Lemma first_seen_two (a b : cell) s :
  a ≠ b → Forall (λ c, c = a ∨ c = b) s → head s = Some a →
  first_seen s = if decide (b ∈ s) then [a; b] else [a].
Proof.
  intros Hab Hs Hhead. destruct s as [|c s]; [done|].
  injection Hhead as ->. apply Forall_cons in Hs as [_ Hs].
  pose proof (NoDup_first_seen (a :: s)) as Hnd. simpl in *.
  apply NoDup_cons in Hnd as [_ Hnd].
  assert (∀ v, v ∈ filter (λ c', c' ≠ a) (first_seen s) ↔ v = b ∧ b ∈ s)
    as Hin.
  { intros v. rewrite list_elem_of_filter, elem_of_first_seen.
    rewrite Forall_forall in Hs. split.
    - intros [Hva Hv]. destruct (Hs v Hv) as [->| ->]; done.
    - intros [-> Hb]. done. }
  destruct (filter (λ c', c' ≠ a) (first_seen s)) as [|x [|y l]].
  - rewrite decide_False; [done|]. rewrite elem_of_cons.
    intros [?|Hb]; [done|]. by apply (elem_of_nil b), Hin.
  - destruct (proj1 (Hin x)) as [-> Hb]; [left|].
    rewrite decide_True; [done|]. by right.
  - destruct (proj1 (Hin x)) as [-> _]; [left|].
    destruct (proj1 (Hin y)) as [-> _]; [right; left|].
    apply NoDup_cons in Hnd as [Hnd _]. destruct Hnd. left.
Qed.

(** The value counts of a series over two labels: the label seen first is
    listed first unless the other one is more frequent, and a label that
    does not occur is not listed. *)
Lemma value_counts_two (a b : cell) s :
  a ≠ b → Forall (λ c, c = a ∨ c = b) s → head s = Some a →
  value_counts s =
    if decide (occurrences b s = 0)%nat then [(a, occurrences a s)]
    else if decide (occurrences b s ≤ occurrences a s)%nat
         then [(a, occurrences a s); (b, occurrences b s)]
         else [(b, occurrences b s); (a, occurrences a s)].
Proof.
  intros Hab Hs Hhead. unfold value_counts.
  rewrite (first_seen_two a b) by done.
  pose proof (occurrences_pos b s) as Hpos.
  destruct (decide (b ∈ s)) as [Hb|Hb].
  - rewrite decide_False by (apply Hpos in Hb; lia). done.
  - rewrite decide_True; [done|].
    destruct (occurrences b s); [done|]. destruct Hb. apply Hpos. lia.
Qed.

(** X10: the winner column holds "Trevor" and "Sarah" and nothing else, and
    the wins of the two add up to the number of game records. Its value
    counts list exactly the names that won a game, each once and with the
    number of games it won, the more frequent first; with the same number of
    wins, the winner of the first game record comes first. *)
Theorem winner_value_counts (df : DataFrame Z) (out : DataFrame cell) :
  game_level_stats_df df = Ok out →
  ∃ winners,
    column out "winner" = Ok winners ∧
    Forall (λ c, c = Str "Trevor" ∨ c = Str "Sarah") winners ∧
    (occurrences (Str "Trevor") winners + occurrences (Str "Sarah") winners
     = length (rows out))%nat ∧
    (∀ v n, (v, n) ∈ value_counts winners ↔
       v ∈ winners ∧ n = occurrences v winners) ∧
    NoDup (value_counts winners).*1 ∧
    Sorted more_frequent (value_counts winners) ∧
    (winners = [] → value_counts winners = []) ∧
    (∀ a b,
       a = Str "Trevor" ∧ b = Str "Sarah" ∨ a = Str "Sarah" ∧ b = Str "Trevor" →
       head winners = Some a →
       value_counts winners =
         if decide (occurrences b winners = 0)%nat
         then [(a, occurrences a winners)]
         else if decide (occurrences b winners ≤ occurrences a winners)%nat
              then [(a, occurrences a winners); (b, occurrences b winners)]
              else [(b, occurrences b winners); (a, occurrences a winners)]).
Proof.
  intros H.
  destruct (game_level_stats_df_rows _ _ H) as (keys & _ & Hcols & Hr).
  set (label := λ k,
    Str (if wrap64 (sum_Z (scores "trevor_points_scored" k df))
            >? wrap64 (sum_Z (scores "sarah_points_scored" k df))
         then "Trevor" else "Sarah")).
  exists (label <$> group_keys keys).
  assert (Forall (λ c, c = Str "Trevor" ∨ c = Str "Sarah") (label <$> group_keys keys))
    as Hlabels.
  { apply Forall_fmap, Forall_true. intros k. unfold label. simpl.
    destruct (_ >? _); auto. }
  split; [|split; [done|split; [|split; [|split; [|split; [|split]]]]]].
  - apply game_level_column; [done | compute_done |].
    eapply Forall2_impl; [exact Hr|].
    intros k row (? & ? & ? & ? & _ & _ & _ & _ & ->). unfold game, label. simpl.
    by simplify_map_eq.
  - rewrite occurrences_two by done. rewrite length_fmap.
    eapply Forall2_length, Hr.
  - intros v n. apply elem_of_value_counts.
  - apply NoDup_value_counts.
  - apply Sorted_value_counts.
  - by intros ->.
  - intros a b [[-> ->]|[-> ->]] Hhead.
    + by apply value_counts_two.
    + apply value_counts_two; [done| |done].
      eapply Forall_impl; [exact Hlabels|]. intros c [->| ->]; auto.
Qed.

Lemma winner_value_counts_witness :
  game_level_stats_df season_round_level = Ok season_game_level ∧
  value_counts [Str "Sarah"; Str "Trevor"; Str "Sarah"]
  = [(Str "Sarah", 2%nat); (Str "Trevor", 1%nat)] ∧
  ∃ winners,
    column season_game_level "winner" = Ok winners ∧
    Forall (λ c, c = Str "Trevor" ∨ c = Str "Sarah") winners ∧
    (occurrences (Str "Trevor") winners + occurrences (Str "Sarah") winners
     = length (rows season_game_level))%nat ∧
    (∀ v n, (v, n) ∈ value_counts winners ↔
       v ∈ winners ∧ n = occurrences v winners) ∧
    NoDup (value_counts winners).*1 ∧
    Sorted more_frequent (value_counts winners) ∧
    (winners = [] → value_counts winners = []) ∧
    (∀ a b,
       a = Str "Trevor" ∧ b = Str "Sarah" ∨ a = Str "Sarah" ∧ b = Str "Trevor" →
       head winners = Some a →
       value_counts winners =
         if decide (occurrences b winners = 0)%nat
         then [(a, occurrences a winners)]
         else if decide (occurrences b winners ≤ occurrences a winners)%nat
              then [(a, occurrences a winners); (b, occurrences b winners)]
              else [(b, occurrences b winners); (a, occurrences a winners)]).
Proof.
  do 2 (split; [vm_compute; reflexivity|]).
  apply (winner_value_counts season_round_level). vm_compute; reflexivity.
Defined.

(** With as many wins for either player the name seen first is listed
    first, and a name without a win is not listed. *)
Lemma value_counts_examples :
  value_counts [Str "Trevor"; Str "Sarah"; Str "Sarah"; Str "Trevor"]
  = [(Str "Trevor", 2%nat); (Str "Sarah", 2%nat)] ∧
  value_counts [Str "Sarah"; Str "Trevor"; Str "Trevor"]
  = [(Str "Trevor", 2%nat); (Str "Sarah", 1%nat)] ∧
  value_counts [Str "Sarah"; Str "Sarah"] = [(Str "Sarah", 2%nat)].
Proof. by vm_compute. Qed.
